(** * A cooperative, tick-driven task scheduler (copos.c)

    Shallow embedding of the scheduler engine of
    [sgermino/Ejer5/src/copos.c]: the task table, the tick update run from
    the timer interrupt, the dispatcher of the main loop and the
    registration interface, followed by the properties of the
    specification that are stated about them.

    Conventions of the embedding.
    - A [uint32_t] is a [Z] in [0, 2^32); arithmetic that can leave that
      range is wrapped explicitly with [wrap32].
    - A function pointer and a [void *] are addresses, [0] being NULL.
    - Slot indexes are [nat]; the table is a [list] read with stdpp's
      lookup and written with stdpp's insert.  Every access of the source
      is guarded by [i < SCHEDULER_MAX_TASKS].
    - The global variables [schedulerTasks] and [errorCode] are threaded
      explicitly as a [scheduler] record.
    - The body of a task's callable is outside the scheduler: the
      dispatcher records each invocation in a trace, and the callable is
      taken not to touch the scheduler's globals. *)

From Stdlib Require Import ZArith Lia List Sorted.
From stdpp Require Import base list.

(** ** Data model *)

(** Unsigned 32-bit wrap-around. *)
Definition wrap32 (z : Z) : Z := (z mod 2 ^ 32)%Z.

Definition uint32 (z : Z) : Prop := (0 <= z < 2 ^ 32)%Z.

(** Modelled from the spec: the declaration of [sTask_t] lives in
    [copos.h], which is not part of the sources at hand.  The fields are
    the five that [schedulerAddTask] assigns; [delay] and [period] are
    unsigned 32-bit ticks, as the data model of the specification states
    and as the [uint32_t] parameters of [schedulerAddTask] have it, and
    [runMe] is an unsigned 32-bit counter as well. *)
Record sTask_t : Type := mk_sTask {
  pTask   : Z;   (* pointer to the task function *)
  context : Z;   (* opaque pointer handed to the task *)
  delay   : Z;   (* uint32_t delay *)
  period  : Z;   (* uint32_t period *)
  runMe   : Z    (* uint32_t runMe *)
}.

(** The slot left by [memset (&schedulerTasks[i], 0, sizeof(sTask_t))]. *)
Definition zero_task : sTask_t := mk_sTask 0 0 0 0 0.

Definition set_delay (d : Z) (t : sTask_t) : sTask_t :=
  mk_sTask (pTask t) (context t) d (period t) (runMe t).

Definition set_period (p : Z) (t : sTask_t) : sTask_t :=
  mk_sTask (pTask t) (context t) (delay t) p (runMe t).

Definition set_runMe (r : Z) (t : sTask_t) : sTask_t :=
  mk_sTask (pTask t) (context t) (delay t) (period t) r.

(** The two globals of the file. *)
Record scheduler : Type := mk_scheduler {
  schedulerTasks : list sTask_t;   (* sTask_t schedulerTasks[SCHEDULER_MAX_TASKS] *)
  errorCode      : Z               (* char errorCode *)
}.

(** [schedulerTasks[i]], for an index within the array. *)
Definition task_at (st : scheduler) (i : nat) : sTask_t :=
  default zero_task (schedulerTasks st !! i).

Definition set_task (st : scheduler) (i : nat) (t : sTask_t) : scheduler :=
  mk_scheduler (<[i := t]> (schedulerTasks st)) (errorCode st).

(** One invocation [t->pTask (t->context, ticks)] made by the dispatcher;
    [call_slot] remembers the slot it was made from. *)
Record call : Type := mk_call {
  call_slot  : nat;
  call_fn    : Z;
  call_ctx   : Z;
  call_ticks : Z
}.

(** ** The operations *)

Section Scheduler.

(** The compile-time constant of [copos.h]. *)
Variable SCHEDULER_MAX_TASKS : nat.

(** The array has exactly [SCHEDULER_MAX_TASKS] elements. *)
Definition table_ok (st : scheduler) : Prop :=
  length (schedulerTasks st) = SCHEDULER_MAX_TASKS.

(** [schedulerDeleteTask]: the index guard, then the return code chosen
    from [pTask], then the unconditional [memset]. *)
Definition schedulerDeleteTask (taskIndex : nat) (st : scheduler)
  : Z * scheduler :=
  if (SCHEDULER_MAX_TASKS <=? taskIndex)%nat then ((-1)%Z, st)
  else
    let '(returnCode, err) :=
      if (pTask (task_at st taskIndex) =? 0)%Z
      then ((-1)%Z, 2%Z)
      else (0%Z, errorCode st) in
    (returnCode,
     mk_scheduler (<[taskIndex := zero_task]> (schedulerTasks st)) err).

(** [schedulerInit]: delete every index, then reset [errorCode]. *)
Definition schedulerInit (st : scheduler) : scheduler :=
  let st' := fold_left (fun s i => snd (schedulerDeleteTask i s))
                       (seq 0 SCHEDULER_MAX_TASKS) st in
  mk_scheduler (schedulerTasks st') 0.

(** The body of the loop of [schedulerUpdate] on one slot.  The test
    [!t->pTask || -- t->delay > 0] short-circuits: an empty slot is left
    as it is; otherwise [delay] is decremented as a [uint32_t] before it
    is compared with zero. *)
Definition update_task (t : sTask_t) : sTask_t :=
  if (pTask t =? 0)%Z then t
  else
    let d := wrap32 (delay t - 1) in
    if (0 <? d)%Z then set_delay d t
    else
      let t1 := set_runMe (wrap32 (runMe t + 1)) (set_delay d t) in
      if (period t =? 0)%Z then t1 else set_delay (period t) t1.

(** [schedulerUpdate]: the tick handler; [ticks] is not used. *)
Definition schedulerUpdate (ticks : Z) (st : scheduler) : scheduler :=
  fold_left (fun s i => set_task s i (update_task (task_at s i)))
            (seq 0 SCHEDULER_MAX_TASKS) st.

(** [schedulerReportStatus]: its body is under [SCH_REPORT_ERRORS], which
    the file does not define (the two variables it would use are commented
    out), so the function does nothing. *)
Definition schedulerReportStatus (st : scheduler) : scheduler := st.

(** The body of the loop of [schedulerDispatchTasks] on slot [i].  [None]
    is the call through a null function pointer. *)
Definition dispatch_task (ticks : Z) (i : nat)
    (acc : option (scheduler * list call)) : option (scheduler * list call) :=
  match acc with
  | None => None
  | Some (st, tr) =>
      let t := task_at st i in
      if (0 <? runMe t)%Z then
        if (pTask t =? 0)%Z then None
        else
          let ev := mk_call i (pTask t) (context t) ticks in
          let st1 := set_task st i (set_runMe (wrap32 (runMe t - 1)) t) in
          let st2 := if (period t =? 0)%Z
                     then snd (schedulerDeleteTask i st1) else st1 in
          Some (st2, tr ++ [ev])
      else Some (st, tr)
  end.

(** [schedulerDispatchTasks]: one pass over the table, then the status
    report; [__WFI ()] only waits and has no effect on the state. *)
Definition schedulerDispatchTasks (ticks : Z) (st : scheduler)
  : option (scheduler * list call) :=
  match fold_left (fun acc i => dispatch_task ticks i acc)
                  (seq 0 SCHEDULER_MAX_TASKS) (Some (st, [])) with
  | None => None
  | Some (st', tr) => Some (schedulerReportStatus st', tr)
  end.

(** The [while] loop of [schedulerAddTask], started at [i] with [n]
    iterations left.  [i] grows by one per iteration and the loop stops at
    [SCHEDULER_MAX_TASKS], so [SCHEDULER_MAX_TASKS] iterations from [0]
    always reach the exit ([find_gap_exit] below). *)
Fixpoint find_gap (n : nat) (i : nat) (st : scheduler) : nat :=
  match n with
  | O => i
  | S n' =>
      if (i <? SCHEDULER_MAX_TASKS)%nat && negb (pTask (task_at st i) =? 0)%Z
      then find_gap n' (S i) st
      else i
  end.

Definition schedulerAddTask (pFunction context delay period : Z)
    (st : scheduler) : nat * scheduler :=
  let i := find_gap SCHEDULER_MAX_TASKS 0 st in
  if (i =? SCHEDULER_MAX_TASKS)%nat
  then (SCHEDULER_MAX_TASKS, mk_scheduler (schedulerTasks st) 2)
  else (i, set_task st i (mk_sTask pFunction context delay period 0)).

Definition schedulerModifyTaskPeriod (taskIndex : nat) (newPeriod : Z)
    (st : scheduler) : Z * scheduler :=
  if (SCHEDULER_MAX_TASKS <=? taskIndex)%nat then ((-1)%Z, st)
  else if (pTask (task_at st taskIndex) =? 0)%Z then ((-1)%Z, st)
  else (0%Z, set_task st taskIndex (set_period newPeriod (task_at st taskIndex))).

(** ** Runs of the scheduler *)

(** The memory the program starts from: a zero-initialised table. *)
Definition boot : scheduler :=
  mk_scheduler (replicate SCHEDULER_MAX_TASKS zero_task) 0.

(** [n] timer interrupts in a row, numbered from 1, with nothing in
    between. *)
Fixpoint run_ticks (n : nat) (st : scheduler) : scheduler :=
  match n with
  | O => st
  | S k => schedulerUpdate (Z.of_nat (S k)) (run_ticks k st)
  end.

(** [n] rounds of the main loop: in round [k] the timer interrupt number
    [k] runs [schedulerUpdate], then the loop, woken from [__WFI ()],
    makes one pass of [schedulerDispatchTasks].  The result carries the
    invocations made so far; [None] is a call through a null pointer. *)
Fixpoint main_loop (n : nat) (st : scheduler) : option (scheduler * list call) :=
  match n with
  | O => Some (st, [])
  | S k =>
      match main_loop k st with
      | None => None
      | Some (st1, tr1) =>
          match schedulerDispatchTasks (Z.of_nat (S k))
                  (schedulerUpdate (Z.of_nat (S k)) st1) with
          | None => None
          | Some (st2, tr2) => Some (st2, tr1 ++ tr2)
          end
      end
  end.

(** The entry points of the scheduler, as requests made to it one at a
    time. *)
Inductive request : Type :=
| AddTask (pFunction context delay period : Z)
| DeleteTask (taskIndex : nat)
| ModifyTaskPeriod (taskIndex : nat) (newPeriod : Z)
| TickStep (ticks : Z)
| DispatchOnce (ticks : Z).

Definition serve (r : request) (st : scheduler) : option scheduler :=
  match r with
  | AddTask f c d p => Some (snd (schedulerAddTask f c d p st))
  | DeleteTask i => Some (snd (schedulerDeleteTask i st))
  | ModifyTaskPeriod i p => Some (snd (schedulerModifyTaskPeriod i p st))
  | TickStep ticks => Some (schedulerUpdate ticks st)
  | DispatchOnce ticks =>
      match schedulerDispatchTasks ticks st with
      | None => None
      | Some (st', _) => Some st'
      end
  end.

Fixpoint serve_all (rs : list request) (st : scheduler) : option scheduler :=
  match rs with
  | [] => Some st
  | r :: rs' =>
      match serve r st with
      | None => None
      | Some st' => serve_all rs' st'
      end
  end.

End Scheduler.

(** ** Vocabulary of the statements *)

(** A slot is occupied iff its callable is present. *)
Definition occupied (t : sTask_t) : bool := negb (pTask t =? 0)%Z.

Definition occupied_slots (st : scheduler) : nat :=
  length (List.filter occupied (schedulerTasks st)).

(** The invocations of a trace that were made from slot [i]. *)
Definition calls_of (i : nat) (tr : list call) : list call :=
  List.filter (fun c => (call_slot c =? i)%nat) tr.

(** Every slot that is due has a callable. *)
Definition due_has_callable (st : scheduler) : Prop :=
  forall i t, schedulerTasks st !! i = Some t -> (0 < runMe t)%Z -> pTask t <> 0%Z.

(** Two small tables used to instantiate the statements: a full table of
    two tasks, and a table of three slots whose middle slot is free. *)
Definition two_tasks : scheduler :=
  mk_scheduler [mk_sTask 7 1 300 1000 0; mk_sTask 8 2 1000 0 0] 0.

Definition one_gap : scheduler :=
  mk_scheduler [mk_sTask 7 1 300 1000 0; zero_task; mk_sTask 8 2 1000 0 0] 0.

(** A slot without a callable is not due; a table of such slots. *)
Definition slot_ok (t : sTask_t) : Prop := pTask t = 0%Z -> runMe t = 0%Z.

Definition free_not_due (st : scheduler) : Prop :=
  Forall slot_ok (schedulerTasks st).

(** The update of one slot, [n] times. *)
Definition update_task_n (n : nat) (t : sTask_t) : sTask_t :=
  Nat.iter n update_task t.

(** What one pass of the dispatcher leaves in a slot that has a callable
    whenever it is due. *)
Definition dispatch_slot (t : sTask_t) : sTask_t :=
  if (0 <? runMe t)%Z then
    if (period t =? 0)%Z then zero_task
    else set_runMe (wrap32 (runMe t - 1)) t
  else t.

(** The invocations of one pass over the slots [l], the first of which has
    index [i]. *)
Fixpoint due_calls (ticks : Z) (i : nat) (l : list sTask_t) : list call :=
  match l with
  | [] => []
  | t :: l' =>
      (if (0 <? runMe t)%Z then [mk_call i (pTask t) (context t) ticks] else [])
      ++ due_calls ticks (S i) l'
  end.

(** One round of the main loop on one slot, and the invocations that [n]
    rounds make from slot [i] when it starts as [t]. *)
Definition round_slot (t : sTask_t) : sTask_t := dispatch_slot (update_task t).

Definition round_calls (i : nat) (k : nat) (t : sTask_t) : list call :=
  let u := update_task t in
  if (0 <? runMe u)%Z then [mk_call i (pTask u) (context u) (Z.of_nat k)] else [].

Fixpoint slot_calls (i : nat) (n : nat) (t : sTask_t) : list call :=
  match n with
  | O => []
  | S k => slot_calls i k t ++ round_calls i (S k) (Nat.iter k round_slot t)
  end.

(** Number of ticks among the first [n] at which a task registered with
    delay [D >= 1] and period [P >= 1] expires: the ticks [D], [D + P],
    [D + 2 P], ... *)
Definition expiries (D P : Z) (n : Z) : Z :=
  if (n <? D)%Z then 0%Z else ((n - D) / P + 1)%Z.

(** Tick [n] is one of [D], [D + P], [D + 2 P], ... *)
Definition expiry_tick (D P : Z) (n : Z) : bool :=
  (D <=? n)%Z && ((n - D) mod P =? 0)%Z.

(** The slot of such a task after [n] ticks with no dispatch in between:
    the countdown runs from [D] to the first expiry and from [P]
    afterwards, and [runMe] has counted the expiries. *)
Definition periodic_slot (f c D P : Z) (n : Z) : sTask_t :=
  mk_sTask f c
    (if (n <? D)%Z then (D - n)%Z else (P - (n - D) mod P)%Z)
    P (wrap32 (expiries D P n)).

(** The slot left by the tick at which the countdown of [t] runs out. *)
Definition expired (t : sTask_t) : sTask_t :=
  mk_sTask (pTask t) (context t)
    (if (period t =? 0)%Z then 0%Z else period t)
    (period t) (wrap32 (runMe t + 1)).

(** The tick at which a countdown that stands at [d] runs out: a zero
    count wraps to [2^32 - 1] at the next tick and needs [2^32] ticks. *)
Definition ticks_to_expiry (d : Z) : Z :=
  if (d =? 0)%Z then (2 ^ 32)%Z else d.

(** ** Further runs and the status report *)

(** Registrations made one after the other, each a callable, a context, a
    delay and a period; the result lists the values the calls return. *)
Fixpoint add_tasks (MAX : nat) (reqs : list (Z * Z * Z * Z)) (st : scheduler)
  : list nat * scheduler :=
  match reqs with
  | [] => ([], st)
  | (f, c, d, p) :: rest =>
      let r := schedulerAddTask MAX f c d p st in
      let rs := add_tasks MAX rest (snd r) in
      (fst r :: fst rs, snd rs)
  end.

(** The slot written by a registration. *)
Definition new_task (r : Z * Z * Z * Z) : sTask_t :=
  let '(f, c, d, p) := r in mk_sTask f c d p 0.

(** [n] passes of the dispatcher with no tick in between, all called with
    the same tick count. *)
Fixpoint run_dispatch (MAX : nat) (n : nat) (ticks : Z) (st : scheduler)
  : option (scheduler * list call) :=
  match n with
  | O => Some (st, [])
  | S k =>
      match run_dispatch MAX k ticks st with
      | None => None
      | Some (st1, tr1) =>
          match schedulerDispatchTasks MAX ticks st1 with
          | None => None
          | Some (st2, tr2) => Some (st2, tr1 ++ tr2)
          end
      end
  end.

(** The invocations that [n] such passes make from slot [i] when it
    starts as [t]. *)
Fixpoint pass_calls (i : nat) (ticks : Z) (n : nat) (t : sTask_t) : list call :=
  match n with
  | O => []
  | S k =>
      pass_calls i ticks k t
      ++ (let u := Nat.iter k dispatch_slot t in
          if (0 <? runMe u)%Z then [mk_call i (pTask u) (context u) ticks]
          else [])
  end.

(** The invocations of callable [f] with context [c] from slot [i] in the
    rounds up to [n] that are expiry ticks for delay [D] and period [P]. *)
Fixpoint expiry_calls (i : nat) (f c D P : Z) (n : nat) : list call :=
  match n with
  | O => []
  | S k =>
      expiry_calls i f c D P k
      ++ (if expiry_tick D P (Z.of_nat (S k))
          then [mk_call i f c (Z.of_nat (S k))] else [])
  end.

(** The variables of the status report.  [errorCode] is the global of the
    file; [lastErrorCode] and [errorTickCount] are the two statics whose
    declarations are commented out at the top of the file (a [char] and
    an [int32_t]).  Modelled from the spec: [errorPort] is declared
    nowhere in the file; it is the indicator sink the report writes to,
    and holds the value assigned to it. *)
Record report_state : Type := mk_report {
  rep_errorCode  : Z;
  lastErrorCode  : Z;
  errorTickCount : Z;
  errorPort      : Z
}.

(** The body of [schedulerReportStatus] under [SCH_REPORT_ERRORS]: the
    function as it is when that symbol is defined.  The count stays
    within [0, 60000], so its decrement never wraps. *)
Definition schedulerReportStatus_reporting (s : report_state) : report_state :=
  if negb (rep_errorCode s =? lastErrorCode s)%Z then
    mk_report (rep_errorCode s) (rep_errorCode s)
              (if negb (rep_errorCode s =? 0)%Z then 60000%Z else 0%Z)
              (255 - rep_errorCode s)%Z
  else
    if negb (errorTickCount s =? 0)%Z then
      let n := (errorTickCount s - 1)%Z in
      mk_report (if (n =? 0)%Z then 0%Z else rep_errorCode s)
                (lastErrorCode s) n (errorPort s)
    else s.

(** ** Reading and writing slots *)

Lemma task_at_lookup (st : scheduler) (i : nat) (t : sTask_t) :
  schedulerTasks st !! i = Some t -> task_at st i = t.
Proof. unfold task_at. intros ->. reflexivity. Qed.

Lemma lookup_task_at (st : scheduler) (i : nat) :
  i < length (schedulerTasks st) ->
  schedulerTasks st !! i = Some (task_at st i).
Proof.
  intros Hi. unfold task_at.
  destruct (lookup_lt_is_Some_2 (schedulerTasks st) i Hi) as [t Ht].
  rewrite Ht. reflexivity.
Qed.

Lemma task_at_set_task_eq (st : scheduler) (i : nat) (t : sTask_t) :
  i < length (schedulerTasks st) -> task_at (set_task st i t) i = t.
Proof.
  intros Hi. unfold task_at, set_task. simpl.
  rewrite list_lookup_insert_eq by exact Hi. reflexivity.
Qed.

Lemma task_at_set_task_ne (st : scheduler) (i j : nat) (t : sTask_t) :
  i <> j -> task_at (set_task st i t) j = task_at st j.
Proof.
  intros Hne. unfold task_at, set_task. simpl.
  rewrite list_lookup_insert_ne by exact Hne. reflexivity.
Qed.

Lemma set_task_same (st : scheduler) (i : nat) :
  set_task st i (task_at st i) = st.
Proof.
  destruct st as [l e]. unfold set_task, task_at. simpl. f_equal.
  destruct (l !! i) as [t|] eqn:Hl; simpl.
  - apply list_insert_id. exact Hl.
  - apply list_insert_ge. apply lookup_ge_None. exact Hl.
Qed.

Section Registry.

Variable MAX : nat.

(** *** The scan for a gap *)

Lemma find_gap_spec (st : scheduler) (n i : nat) :
  i + n = MAX ->
  i <= find_gap MAX n i st <= MAX
  /\ (forall j, i <= j < find_gap MAX n i st -> pTask (task_at st j) <> 0%Z)
  /\ (find_gap MAX n i st < MAX -> pTask (task_at st (find_gap MAX n i st)) = 0%Z).
Proof.
  revert i. induction n as [|n IH]; intros i Hin; simpl.
  - split; [lia|]. split; [intros j Hj; lia|intros Hlt; lia].
  - destruct (Nat.ltb_spec i MAX) as [Hlt|Hge]; [|lia]. simpl.
    destruct (Z.eqb_spec (pTask (task_at st i)) 0) as [Hz|Hnz]; simpl.
    + split; [lia|]. split; [intros j Hj; lia|intros _; exact Hz].
    + destruct (IH (S i) ltac:(lia)) as (Hb & Hocc & Hfree).
      split; [lia|]. split; [|exact Hfree].
      intros j Hj. destruct (Nat.eq_dec j i) as [->|Hne]; [exact Hnz|].
      apply Hocc. lia.
Qed.

(** The iterations granted to the loop are enough: it ends either at the
    end of the array or on a free slot with only occupied slots below. *)
Lemma find_gap_exit (st : scheduler) :
  let k := find_gap MAX MAX 0 st in
  k <= MAX
  /\ (forall j, j < k -> pTask (task_at st j) <> 0%Z)
  /\ (k < MAX -> pTask (task_at st k) = 0%Z).
Proof.
  destruct (find_gap_spec st MAX 0 eq_refl) as (Hb & Hocc & Hfree).
  repeat split; [lia| |exact Hfree].
  intros j Hj. apply Hocc. lia.
Qed.

Lemma find_gap_lowest (st : scheduler) (k : nat) :
  k < MAX ->
  pTask (task_at st k) = 0%Z ->
  (forall j, j < k -> pTask (task_at st j) <> 0%Z) ->
  find_gap MAX MAX 0 st = k.
Proof.
  intros Hk Hfree Hocc.
  destruct (find_gap_exit st) as (Hb & Hocc' & Hfree'). simpl in *.
  destruct (Nat.lt_trichotomy (find_gap MAX MAX 0 st) k) as [Hlt|[Heq|Hgt]].
  - exfalso. apply (Hocc _ Hlt). apply Hfree'. lia.
  - exact Heq.
  - exfalso. apply (Hocc' _ Hgt). exact Hfree.
Qed.

Lemma find_gap_full (st : scheduler) :
  (forall j, j < MAX -> pTask (task_at st j) <> 0%Z) ->
  find_gap MAX MAX 0 st = MAX.
Proof.
  intros Hocc.
  destruct (find_gap_exit st) as (Hb & _ & Hfree'). simpl in *.
  destruct (Nat.eq_dec (find_gap MAX MAX 0 st) MAX) as [Heq|Hne]; [exact Heq|].
  exfalso. apply (Hocc (find_gap MAX MAX 0 st)); [lia|]. apply Hfree'. lia.
Qed.

(** *** [schedulerAddTask] *)

Lemma schedulerAddTask_full (st : scheduler) (f c d p : Z) :
  (forall j, j < MAX -> pTask (task_at st j) <> 0%Z) ->
  schedulerAddTask MAX f c d p st = (MAX, mk_scheduler (schedulerTasks st) 2).
Proof.
  intros Hocc. unfold schedulerAddTask.
  rewrite (find_gap_full st Hocc), Nat.eqb_refl. reflexivity.
Qed.

Lemma schedulerAddTask_gap (st : scheduler) (f c d p : Z) (k : nat) :
  k < MAX ->
  pTask (task_at st k) = 0%Z ->
  (forall j, j < k -> pTask (task_at st j) <> 0%Z) ->
  schedulerAddTask MAX f c d p st = (k, set_task st k (mk_sTask f c d p 0)).
Proof.
  intros Hk Hfree Hocc. unfold schedulerAddTask.
  rewrite (find_gap_lowest st k Hk Hfree Hocc).
  destruct (Nat.eqb_spec k MAX) as [Heq|_]; [lia|]. reflexivity.
Qed.

(** Whatever the table holds, the call returns either the sentinel or the
    index of the slot it wrote. *)
Lemma schedulerAddTask_cases (st : scheduler) (f c d p : Z) :
  schedulerAddTask MAX f c d p st = (MAX, mk_scheduler (schedulerTasks st) 2)
  \/ exists k, k < MAX /\ pTask (task_at st k) = 0%Z
       /\ (forall j, j < k -> pTask (task_at st j) <> 0%Z)
       /\ schedulerAddTask MAX f c d p st
          = (k, set_task st k (mk_sTask f c d p 0)).
Proof.
  destruct (find_gap_exit st) as (Hb & Hocc & Hfree). simpl in *.
  unfold schedulerAddTask.
  destruct (Nat.eqb_spec (find_gap MAX MAX 0 st) MAX) as [Heq|Hne].
  - left. reflexivity.
  - right. exists (find_gap MAX MAX 0 st).
    repeat split; [lia|apply Hfree; lia|exact Hocc].
Qed.

(** *** [schedulerDeleteTask] *)

Lemma schedulerDeleteTask_invalid (st : scheduler) (i : nat) :
  MAX <= i -> schedulerDeleteTask MAX i st = ((-1)%Z, st).
Proof.
  intros Hi. unfold schedulerDeleteTask.
  destruct (Nat.leb_spec MAX i) as [_|Hlt]; [reflexivity|lia].
Qed.

Lemma schedulerDeleteTask_empty (st : scheduler) (i : nat) :
  i < MAX -> pTask (task_at st i) = 0%Z ->
  schedulerDeleteTask MAX i st
  = ((-1)%Z, mk_scheduler (<[i := zero_task]> (schedulerTasks st)) 2).
Proof.
  intros Hi Hz. unfold schedulerDeleteTask.
  destruct (Nat.leb_spec MAX i) as [Hge|_]; [lia|].
  rewrite Hz. reflexivity.
Qed.

Lemma schedulerDeleteTask_occupied (st : scheduler) (i : nat) :
  i < MAX -> pTask (task_at st i) <> 0%Z ->
  schedulerDeleteTask MAX i st
  = (0%Z, mk_scheduler (<[i := zero_task]> (schedulerTasks st)) (errorCode st)).
Proof.
  intros Hi Hnz. unfold schedulerDeleteTask.
  destruct (Nat.leb_spec MAX i) as [Hge|_]; [lia|].
  destruct (Z.eqb_spec (pTask (task_at st i)) 0) as [Hz|_]; [contradiction|].
  reflexivity.
Qed.

Lemma schedulerDeleteTask_tasks (st : scheduler) (i : nat) :
  i < MAX ->
  schedulerTasks (snd (schedulerDeleteTask MAX i st))
  = <[i := zero_task]> (schedulerTasks st).
Proof.
  intros Hi. unfold schedulerDeleteTask.
  destruct (Nat.leb_spec MAX i) as [Hge|_]; [lia|].
  destruct (pTask (task_at st i) =? 0)%Z; reflexivity.
Qed.

(** *** [schedulerModifyTaskPeriod] *)

Lemma schedulerModifyTaskPeriod_occupied (st : scheduler) (i : nat) (p : Z) :
  i < MAX -> pTask (task_at st i) <> 0%Z ->
  schedulerModifyTaskPeriod MAX i p st
  = (0%Z, set_task st i (set_period p (task_at st i))).
Proof.
  intros Hi Hnz. unfold schedulerModifyTaskPeriod.
  destruct (Nat.leb_spec MAX i) as [Hge|_]; [lia|].
  destruct (Z.eqb_spec (pTask (task_at st i)) 0) as [Hz|_]; [contradiction|].
  reflexivity.
Qed.

Lemma schedulerModifyTaskPeriod_fail (st : scheduler) (i : nat) (p : Z) :
  MAX <= i \/ pTask (task_at st i) = 0%Z ->
  schedulerModifyTaskPeriod MAX i p st = ((-1)%Z, st).
Proof.
  intros H. unfold schedulerModifyTaskPeriod.
  destruct (Nat.leb_spec MAX i) as [Hge|Hlt]; [reflexivity|].
  destruct H as [H|H]; [lia|]. rewrite H. reflexivity.
Qed.

End Registry.

(** ** The two passes over the table, slot by slot *)

Section Passes.

Variable MAX : nat.

(** A loop that rewrites every slot in place from its own content is a
    map over the table. *)
Lemma fold_slots_fmap (f : sTask_t -> sTask_t) (n : nat)
    (l : list sTask_t) (e : Z) :
  n <= length l ->
  fold_left (fun s i => set_task s i (f (task_at s i))) (seq 0 n)
            (mk_scheduler l e)
  = mk_scheduler ((f <$> take n l) ++ drop n l) e.
Proof.
  induction n as [|n IH]; intros Hn.
  - simpl. rewrite drop_0. reflexivity.
  - rewrite seq_S, fold_left_app, IH by lia. simpl.
    destruct (lookup_lt_is_Some_2 l n ltac:(lia)) as [x Hx].
    assert (Hlen : length (f <$> take n l) = n).
    { rewrite length_fmap, length_take_le; lia. }
    unfold set_task, task_at. simpl. f_equal.
    rewrite lookup_app_r by lia. rewrite Hlen, Nat.sub_diag.
    rewrite (drop_S l x n Hx). simpl.
    rewrite insert_app_r_alt by lia. rewrite Hlen, Nat.sub_diag. simpl.
    rewrite (take_S_r l n x Hx), fmap_app. simpl.
    rewrite <- app_assoc. reflexivity.
Qed.

Lemma schedulerUpdate_fmap (ticks : Z) (st : scheduler) :
  table_ok MAX st ->
  schedulerUpdate MAX ticks st
  = mk_scheduler (update_task <$> schedulerTasks st) (errorCode st).
Proof.
  intros Hok. unfold schedulerUpdate. destruct st as [l e].
  unfold table_ok in Hok. simpl in *.
  rewrite fold_slots_fmap by lia.
  rewrite take_ge, drop_ge, app_nil_r by lia. reflexivity.
Qed.

Lemma schedulerUpdate_table_ok (ticks : Z) (st : scheduler) :
  table_ok MAX st -> table_ok MAX (schedulerUpdate MAX ticks st).
Proof.
  intros Hok. rewrite schedulerUpdate_fmap by exact Hok.
  unfold table_ok in *. simpl. rewrite length_fmap. exact Hok.
Qed.

Lemma schedulerUpdate_task_at (ticks : Z) (st : scheduler) (i : nat) :
  table_ok MAX st -> i < MAX ->
  task_at (schedulerUpdate MAX ticks st) i = update_task (task_at st i).
Proof.
  intros Hok Hi. rewrite schedulerUpdate_fmap by exact Hok.
  unfold task_at. simpl. rewrite list_lookup_fmap.
  unfold table_ok in Hok.
  destruct (lookup_lt_is_Some_2 (schedulerTasks st) i ltac:(lia)) as [x Hx].
  rewrite Hx. reflexivity.
Qed.

Lemma run_ticks_table_ok (n : nat) (st : scheduler) :
  table_ok MAX st -> table_ok MAX (run_ticks MAX n st).
Proof.
  intros Hok. induction n as [|n IH]; simpl; [exact Hok|].
  apply schedulerUpdate_table_ok. exact IH.
Qed.

Lemma run_ticks_task_at (n : nat) (st : scheduler) (i : nat) :
  table_ok MAX st -> i < MAX ->
  task_at (run_ticks MAX n st) i = update_task_n n (task_at st i).
Proof.
  intros Hok Hi. induction n as [|n IH]; [reflexivity|].
  cbn [run_ticks]. rewrite schedulerUpdate_task_at
    by (try apply run_ticks_table_ok; assumption).
  rewrite IH. reflexivity.
Qed.

Lemma run_ticks_errorCode (n : nat) (st : scheduler) :
  table_ok MAX st -> errorCode (run_ticks MAX n st) = errorCode st.
Proof.
  intros Hok. induction n as [|n IH]; [reflexivity|].
  cbn [run_ticks]. rewrite schedulerUpdate_fmap by (apply run_ticks_table_ok; exact Hok).
  simpl. exact IH.
Qed.

(** *** The dispatcher *)

Lemma due_calls_app (ticks : Z) (i : nat) (l1 l2 : list sTask_t) :
  due_calls ticks i (l1 ++ l2)
  = due_calls ticks i l1 ++ due_calls ticks (i + length l1) l2.
Proof.
  revert i. induction l1 as [|t l1 IH]; intros i; simpl.
  - rewrite Nat.add_0_r. reflexivity.
  - rewrite IH, <- app_assoc.
    replace (S i + length l1) with (i + S (length l1)) by lia. reflexivity.
Qed.

(** On a table whose due slots all have a callable, the loop of the
    dispatcher never calls through a null pointer; it leaves
    [dispatch_slot] of every slot it has visited and has made the
    invocations [due_calls] of them, in index order. *)
Lemma fold_dispatch (ticks : Z) (n : nat) (l : list sTask_t) (e : Z)
    (tr : list call) :
  n <= length l -> n <= MAX ->
  (forall i t, l !! i = Some t -> (0 < runMe t)%Z -> pTask t <> 0%Z) ->
  fold_left (fun acc i => dispatch_task MAX ticks i acc) (seq 0 n)
            (Some (mk_scheduler l e, tr))
  = Some (mk_scheduler ((dispatch_slot <$> take n l) ++ drop n l) e,
          tr ++ due_calls ticks 0 (take n l)).
Proof.
  intros Hn HMAX Hinv. induction n as [|n IH].
  - simpl. rewrite drop_0, app_nil_r. reflexivity.
  - rewrite seq_S, fold_left_app, IH by lia. simpl.
    destruct (lookup_lt_is_Some_2 l n ltac:(lia)) as [x Hx].
    assert (Hlen : length (dispatch_slot <$> take n l) = n).
    { rewrite length_fmap, length_take_le; lia. }
    assert (Hat : task_at (mk_scheduler ((dispatch_slot <$> take n l) ++ drop n l) e) n = x).
    { unfold task_at. simpl. rewrite lookup_app_r by lia.
      rewrite Hlen, Nat.sub_diag, (drop_S l x n Hx). reflexivity. }
    rewrite Hat.
    rewrite (take_S_r l n x Hx), fmap_app, due_calls_app. simpl.
    rewrite length_take_le by lia.
    rewrite (drop_S l x n Hx).
    destruct (Z.ltb_spec 0 (runMe x)) as [Hdue|Hnot].
    + destruct (Z.eqb_spec (pTask x) 0) as [Hz|Hnz].
      { exfalso. exact (Hinv n x Hx Hdue Hz). }
      f_equal. f_equal.
      * destruct (Z.eqb_spec (period x) 0) as [Hp|Hp].
        -- assert (Hds : dispatch_slot x = zero_task).
           { unfold dispatch_slot.
             rewrite (proj2 (Z.ltb_lt _ _) Hdue), Hp. reflexivity. }
           unfold schedulerDeleteTask.
           destruct (Nat.leb_spec MAX n) as [Hge|_]; [lia|].
           rewrite task_at_set_task_eq
             by (simpl; rewrite length_app, Hlen; simpl; lia).
           simpl. destruct (Z.eqb_spec (pTask x) 0) as [Hz|_]; [contradiction|].
           simpl. f_equal.
           rewrite list_insert_insert_eq.
           rewrite insert_app_r_alt by lia. rewrite Hlen, Nat.sub_diag. simpl.
           rewrite Hds, <- app_assoc. reflexivity.
        -- assert (Hds : dispatch_slot x = set_runMe (wrap32 (runMe x - 1)) x).
           { unfold dispatch_slot.
             rewrite (proj2 (Z.ltb_lt _ _) Hdue).
             destruct (Z.eqb_spec (period x) 0); [contradiction|reflexivity]. }
           unfold set_task. simpl. f_equal.
           rewrite insert_app_r_alt by lia. rewrite Hlen, Nat.sub_diag. simpl.
           rewrite Hds, <- app_assoc. reflexivity.
      * rewrite app_nil_r, <- app_assoc. reflexivity.
    + assert (Hds : dispatch_slot x = x).
      { unfold dispatch_slot.
        destruct (Z.ltb_spec 0 (runMe x)); [lia|reflexivity]. }
      rewrite !app_nil_r, Hds. f_equal. f_equal.
      rewrite <- app_assoc. reflexivity.
Qed.

Lemma schedulerDispatchTasks_fmap (ticks : Z) (st : scheduler) :
  table_ok MAX st -> due_has_callable st ->
  schedulerDispatchTasks MAX ticks st
  = Some (mk_scheduler (dispatch_slot <$> schedulerTasks st) (errorCode st),
          due_calls ticks 0 (schedulerTasks st)).
Proof.
  intros Hok Hinv. unfold schedulerDispatchTasks. destruct st as [l e].
  unfold table_ok, due_has_callable in *. simpl in *.
  rewrite fold_dispatch by (try lia; exact Hinv). simpl.
  rewrite take_ge, drop_ge, app_nil_r by lia. reflexivity.
Qed.

End Passes.

(** ** Invariants of the table *)

Section Invariants.

Variable MAX : nat.

Lemma slot_ok_zero_task : slot_ok zero_task.
Proof. intros _. reflexivity. Qed.

Lemma slot_ok_update_task (t : sTask_t) : slot_ok t -> slot_ok (update_task t).
Proof.
  unfold slot_ok, update_task. intros Hok.
  destruct (Z.eqb_spec (pTask t) 0) as [Hz|Hnz]; [exact Hok|].
  destruct (0 <? wrap32 (delay t - 1))%Z; [simpl; intros; contradiction|].
  destruct (period t =? 0)%Z; simpl; intros; contradiction.
Qed.

Lemma slot_ok_dispatch_slot (t : sTask_t) : slot_ok t -> slot_ok (dispatch_slot t).
Proof.
  unfold slot_ok, dispatch_slot. intros Hok.
  destruct (Z.ltb_spec 0 (runMe t)) as [Hdue|_]; [|exact Hok].
  destruct (period t =? 0)%Z; simpl; [reflexivity|].
  intros Hz. specialize (Hok Hz). lia.
Qed.

Lemma slot_ok_set_period (p : Z) (t : sTask_t) : slot_ok t -> slot_ok (set_period p t).
Proof. unfold slot_ok. simpl. tauto. Qed.

Lemma free_not_due_task_at (st : scheduler) (i : nat) :
  free_not_due st -> slot_ok (task_at st i).
Proof.
  intros Hinv. unfold task_at.
  destruct (schedulerTasks st !! i) as [t|] eqn:Ht; simpl.
  - exact (proj1 (Forall_lookup _ _) Hinv i t Ht).
  - exact slot_ok_zero_task.
Qed.

Lemma free_not_due_due_has_callable (st : scheduler) :
  free_not_due st -> due_has_callable st.
Proof.
  intros Hinv i t Ht Hdue Hz.
  pose proof (proj1 (Forall_lookup _ _) Hinv i t Ht Hz). lia.
Qed.

(** *** [schedulerInit] *)

Lemma fold_delete (n : nat) (l : list sTask_t) (e : Z) :
  n <= length l -> n <= MAX ->
  schedulerTasks
    (fold_left (fun s i => snd (schedulerDeleteTask MAX i s)) (seq 0 n)
               (mk_scheduler l e))
  = replicate n zero_task ++ drop n l.
Proof.
  induction n as [|n IH]; intros Hn HMAX.
  - simpl. rewrite drop_0. reflexivity.
  - rewrite seq_S, fold_left_app. simpl.
    rewrite schedulerDeleteTask_tasks by lia.
    rewrite IH by lia.
    destruct (lookup_lt_is_Some_2 l n ltac:(lia)) as [x Hx].
    rewrite (drop_S l x n Hx).
    rewrite insert_app_r_alt by (rewrite length_replicate; lia).
    rewrite length_replicate, Nat.sub_diag. simpl.
    rewrite app_comm_cons, replicate_cons_app, <- app_assoc. reflexivity.
Qed.

Lemma schedulerInit_boot (st : scheduler) :
  table_ok MAX st -> schedulerInit MAX st = boot MAX.
Proof.
  intros Hok. unfold schedulerInit, boot. destruct st as [l e].
  unfold table_ok in Hok. simpl in Hok.
  rewrite fold_delete by lia.
  rewrite drop_ge, app_nil_r by lia. reflexivity.
Qed.

Lemma boot_table_ok : table_ok MAX (boot MAX).
Proof. unfold table_ok, boot. simpl. apply length_replicate. Qed.

Lemma boot_free_not_due : free_not_due (boot MAX).
Proof.
  unfold free_not_due, boot. simpl.
  apply Forall_replicate. exact slot_ok_zero_task.
Qed.

(** *** Every request keeps the table well formed *)

Lemma schedulerAddTask_table_ok (st : scheduler) (f c d p : Z) :
  table_ok MAX st -> table_ok MAX (snd (schedulerAddTask MAX f c d p st)).
Proof.
  intros Hok. unfold schedulerAddTask, table_ok in *.
  destruct (_ =? MAX)%nat; simpl; [exact Hok|].
  rewrite length_insert. exact Hok.
Qed.

Lemma schedulerDeleteTask_table_ok (st : scheduler) (i : nat) :
  table_ok MAX st -> table_ok MAX (snd (schedulerDeleteTask MAX i st)).
Proof.
  intros Hok. unfold schedulerDeleteTask, table_ok in *.
  destruct (MAX <=? i)%nat; [exact Hok|].
  destruct (pTask (task_at st i) =? 0)%Z; simpl; rewrite length_insert; exact Hok.
Qed.

Lemma schedulerModifyTaskPeriod_table_ok (st : scheduler) (i : nat) (p : Z) :
  table_ok MAX st -> table_ok MAX (snd (schedulerModifyTaskPeriod MAX i p st)).
Proof.
  intros Hok. unfold schedulerModifyTaskPeriod, table_ok in *.
  destruct (MAX <=? i)%nat; [exact Hok|].
  destruct (pTask (task_at st i) =? 0)%Z; simpl; [exact Hok|].
  rewrite length_insert. exact Hok.
Qed.

Lemma schedulerAddTask_free_not_due (st : scheduler) (f c d p : Z) :
  free_not_due st -> free_not_due (snd (schedulerAddTask MAX f c d p st)).
Proof.
  intros Hinv. unfold schedulerAddTask, free_not_due in *.
  destruct (_ =? MAX)%nat; simpl; [exact Hinv|].
  apply Forall_insert; [exact Hinv|]. intros _. reflexivity.
Qed.

Lemma schedulerDeleteTask_free_not_due (st : scheduler) (i : nat) :
  free_not_due st -> free_not_due (snd (schedulerDeleteTask MAX i st)).
Proof.
  intros Hinv. unfold schedulerDeleteTask, free_not_due in *.
  destruct (MAX <=? i)%nat; [exact Hinv|].
  destruct (pTask (task_at st i) =? 0)%Z; simpl;
    (apply Forall_insert; [exact Hinv|exact slot_ok_zero_task]).
Qed.

Lemma schedulerModifyTaskPeriod_free_not_due (st : scheduler) (i : nat) (p : Z) :
  free_not_due st -> free_not_due (snd (schedulerModifyTaskPeriod MAX i p st)).
Proof.
  intros Hinv. unfold schedulerModifyTaskPeriod.
  destruct (MAX <=? i)%nat; [exact Hinv|].
  destruct (pTask (task_at st i) =? 0)%Z; simpl; [exact Hinv|].
  unfold free_not_due, set_task. simpl.
  apply Forall_insert; [exact Hinv|].
  apply slot_ok_set_period, free_not_due_task_at. exact Hinv.
Qed.

Lemma schedulerUpdate_free_not_due (ticks : Z) (st : scheduler) :
  table_ok MAX st -> free_not_due st ->
  free_not_due (schedulerUpdate MAX ticks st).
Proof.
  intros Hok Hinv. rewrite schedulerUpdate_fmap by exact Hok.
  unfold free_not_due in *. simpl. apply Forall_fmap.
  eapply Forall_impl; [exact Hinv|]. intros t. apply slot_ok_update_task.
Qed.

(** A pass of the dispatcher over a table whose free slots are not due
    returns, and keeps the table such. *)
Lemma schedulerDispatchTasks_returns (ticks : Z) (st : scheduler) :
  table_ok MAX st -> free_not_due st ->
  exists st' tr, schedulerDispatchTasks MAX ticks st = Some (st', tr)
                 /\ table_ok MAX st' /\ free_not_due st'.
Proof.
  intros Hok Hinv.
  rewrite schedulerDispatchTasks_fmap
    by (try apply free_not_due_due_has_callable; assumption).
  eexists _, _. split; [reflexivity|]. split.
  - unfold table_ok in *. simpl. rewrite length_fmap. exact Hok.
  - unfold free_not_due in *. simpl. apply Forall_fmap.
    eapply Forall_impl; [exact Hinv|]. intros t. apply slot_ok_dispatch_slot.
Qed.

Lemma serve_returns (r : request) (st : scheduler) :
  table_ok MAX st -> free_not_due st ->
  exists st', serve MAX r st = Some st' /\ table_ok MAX st' /\ free_not_due st'.
Proof.
  intros Hok Hinv. destruct r as [f c d p|i|i p|ticks|ticks]; simpl.
  - eexists. split; [reflexivity|].
    split; [apply schedulerAddTask_table_ok|apply schedulerAddTask_free_not_due];
      assumption.
  - eexists. split; [reflexivity|].
    split; [apply schedulerDeleteTask_table_ok|apply schedulerDeleteTask_free_not_due];
      assumption.
  - eexists. split; [reflexivity|].
    split; [apply schedulerModifyTaskPeriod_table_ok
           |apply schedulerModifyTaskPeriod_free_not_due]; assumption.
  - eexists. split; [reflexivity|].
    split; [apply schedulerUpdate_table_ok|apply schedulerUpdate_free_not_due];
      assumption.
  - destruct (schedulerDispatchTasks_returns ticks st Hok Hinv)
      as (st' & tr & Heq & Hok' & Hinv').
    rewrite Heq. exists st'. auto.
Qed.

Lemma serve_all_returns (rs : list request) (st : scheduler) :
  table_ok MAX st -> free_not_due st ->
  exists st', serve_all MAX rs st = Some st' /\ table_ok MAX st' /\ free_not_due st'.
Proof.
  revert st. induction rs as [|r rs IH]; intros st Hok Hinv; simpl.
  - exists st. auto.
  - destruct (serve_returns r st Hok Hinv) as (st1 & Heq & Hok1 & Hinv1).
    rewrite Heq. apply IH; assumption.
Qed.

Lemma occupied_slots_le (st : scheduler) :
  table_ok MAX st -> occupied_slots st <= MAX.
Proof.
  unfold table_ok, occupied_slots. intros <-. apply List.filter_length_le.
Qed.

End Invariants.

(** ** The countdown of one slot *)

Section Countdown.

Local Open Scope Z_scope.

Lemma wrap32_small (z : Z) : uint32 z -> wrap32 z = z.
Proof. unfold uint32, wrap32. intros H. apply Z.mod_small. exact H. Qed.

Lemma wrap32_uint32 (z : Z) : uint32 (wrap32 z).
Proof. unfold uint32, wrap32. apply Z.mod_pos_bound. lia. Qed.

Lemma wrap32_pred_zero : wrap32 (0 - 1) = 2 ^ 32 - 1.
Proof. reflexivity. Qed.

Lemma wrap32_below (n : Z) : 0 < n < 2 ^ 32 -> wrap32 (0 - n) = 2 ^ 32 - n.
Proof.
  intros Hn. unfold wrap32.
  symmetry. apply (Z.mod_unique _ _ (-1)); lia.
Qed.

Lemma wrap32_countdown (d n : Z) :
  uint32 d -> 0 <= n < ticks_to_expiry d ->
  wrap32 (d - n) = (if d =? 0 then (if n =? 0 then 0 else 2 ^ 32 - n) else d - n)
  /\ (0 < n -> 0 < wrap32 (d - n)).
Proof.
  unfold uint32, ticks_to_expiry. intros Hd Hn.
  destruct (Z.eqb_spec d 0) as [->|Hd0].
  - destruct (Z.eqb_spec n 0) as [->|Hn0].
    + split; [reflexivity|lia].
    + rewrite wrap32_below by lia. lia.
  - rewrite wrap32_small by (unfold uint32; lia). lia.
Qed.

Lemma wrap32_expiry (d : Z) : uint32 d -> wrap32 (d - ticks_to_expiry d) = 0.
Proof.
  unfold uint32, ticks_to_expiry. intros Hd.
  destruct (Z.eqb_spec d 0) as [->|Hd0]; [reflexivity|].
  rewrite Z.sub_diag. reflexivity.
Qed.

Lemma wrap32_sub_1 (z : Z) : wrap32 (wrap32 z - 1) = wrap32 (z - 1).
Proof. unfold wrap32. apply Zminus_mod_idemp_l. Qed.

Lemma wrap32_add_1 (z : Z) : wrap32 (wrap32 z + 1) = wrap32 (z + 1).
Proof. unfold wrap32. apply Zplus_mod_idemp_l. Qed.

(** *** One tick on one slot *)

Lemma update_task_free (t : sTask_t) : pTask t = 0 -> update_task t = t.
Proof. intros Hz. unfold update_task. rewrite Hz. reflexivity. Qed.

Lemma update_task_counting (t : sTask_t) :
  pTask t <> 0 -> 0 < wrap32 (delay t - 1) ->
  update_task t = set_delay (wrap32 (delay t - 1)) t.
Proof.
  intros Hnz Hd. unfold update_task.
  destruct (Z.eqb_spec (pTask t) 0) as [Hz|_]; [contradiction|].
  destruct (Z.ltb_spec 0 (wrap32 (delay t - 1))) as [_|Hle]; [reflexivity|lia].
Qed.

Lemma update_task_expiring (t : sTask_t) :
  pTask t <> 0 -> wrap32 (delay t - 1) = 0 -> update_task t = expired t.
Proof.
  intros Hnz Hd. unfold update_task, expired.
  destruct (Z.eqb_spec (pTask t) 0) as [Hz|_]; [contradiction|].
  rewrite Hd. simpl. destruct (period t =? 0); reflexivity.
Qed.

(** A countdown that stands at zero is not due at the next tick: the
    decrement wraps it to [2^32 - 1]. *)
Lemma update_task_wraps (t : sTask_t) :
  pTask t <> 0 -> delay t = 0 -> update_task t = set_delay (2 ^ 32 - 1) t.
Proof.
  intros Hnz Hd. rewrite update_task_counting; rewrite ?Hd; try assumption;
    rewrite wrap32_pred_zero; [reflexivity|lia].
Qed.

Lemma update_task_n_S (n : nat) (t : sTask_t) :
  update_task_n (S n) t = update_task (update_task_n n t).
Proof. reflexivity. Qed.

(** *** The countdown to the next expiry, whatever the period *)

Lemma countdown_before_expiry (t : sTask_t) (n : nat) :
  pTask t <> 0 -> uint32 (delay t) ->
  Z.of_nat n < ticks_to_expiry (delay t) ->
  update_task_n n t = set_delay (wrap32 (delay t - Z.of_nat n)) t.
Proof.
  intros Hnz Hd. induction n as [|n IH]; intros Hn.
  - simpl. rewrite Z.sub_0_r, wrap32_small by exact Hd.
    destruct t; reflexivity.
  - rewrite update_task_n_S, IH by lia.
    assert (Heq : wrap32 (delay (set_delay (wrap32 (delay t - Z.of_nat n)) t) - 1)
                  = wrap32 (delay t - Z.of_nat (S n))).
    { simpl delay. rewrite wrap32_sub_1. f_equal. lia. }
    rewrite update_task_counting.
    + rewrite Heq. reflexivity.
    + exact Hnz.
    + rewrite Heq. apply (wrap32_countdown (delay t)); [exact Hd|lia|lia].
Qed.

Lemma countdown_at_expiry (t : sTask_t) (n : nat) :
  pTask t <> 0 -> uint32 (delay t) ->
  Z.of_nat n = ticks_to_expiry (delay t) ->
  update_task_n n t = expired t.
Proof.
  intros Hnz Hd Hn. destruct n as [|n].
  - exfalso. unfold ticks_to_expiry, uint32 in *.
    destruct (Z.eqb_spec (delay t) 0); simpl in Hn; lia.
  - rewrite update_task_n_S, countdown_before_expiry by (try assumption; lia).
    rewrite update_task_expiring.
    + reflexivity.
    + exact Hnz.
    + simpl delay. rewrite wrap32_sub_1.
      replace (delay t - Z.of_nat n - 1) with (delay t - ticks_to_expiry (delay t)) by lia.
      apply wrap32_expiry. exact Hd.
Qed.

(** *** A periodic task left alone *)

Lemma div_mod_succ (P m : Z) :
  0 < P -> 0 <= m ->
  if m mod P =? P - 1
  then (m + 1) mod P = 0 /\ (m + 1) / P = m / P + 1
  else (m + 1) mod P = m mod P + 1 /\ (m + 1) / P = m / P.
Proof.
  intros HP Hm.
  pose proof (Z.div_mod m P ltac:(lia)) as Hdm.
  pose proof (Z.mod_pos_bound m P HP) as Hr.
  destruct (Z.eqb_spec (m mod P) (P - 1)) as [Heq|Hne].
  - split.
    + symmetry. apply (Z.mod_unique _ _ (m / P + 1)); lia.
    + symmetry. apply (Z.div_unique _ _ _ 0); lia.
  - split.
    + symmetry. apply (Z.mod_unique _ _ (m / P)); lia.
    + symmetry. apply (Z.div_unique _ _ _ (m mod P + 1)); lia.
Qed.

Lemma expiries_succ (D P n : Z) :
  1 <= D -> 1 <= P -> 0 <= n ->
  expiries D P (n + 1)
  = if expiry_tick D P (n + 1) then expiries D P n + 1 else expiries D P n.
Proof.
  intros HD HP Hn. unfold expiries, expiry_tick.
  destruct (Z.ltb_spec (n + 1) D) as [Hlt|Hge].
  - destruct (Z.leb_spec D (n + 1)) as [Hle|_]; [lia|]. simpl.
    destruct (Z.ltb_spec n D); [reflexivity|lia].
  - destruct (Z.leb_spec D (n + 1)) as [_|Hgt]; [|lia]. simpl.
    destruct (Z.ltb_spec n D) as [Hlt|Hge'].
    + replace (n + 1 - D) with 0 by lia.
      rewrite Z.mod_0_l, Z.div_0_l by lia. reflexivity.
    + pose proof (div_mod_succ P (n - D) ltac:(lia) ltac:(lia)) as Hs.
      replace (n + 1 - D) with (n - D + 1) by lia.
      pose proof (Z.mod_pos_bound (n - D) P ltac:(lia)) as Hr.
      destruct (Z.eqb_spec ((n - D) mod P) (P - 1)) as [Heq|Hne];
        destruct Hs as [Hs1 Hs2]; rewrite Hs1, Hs2.
      * reflexivity.
      * destruct (Z.eqb_spec ((n - D) mod P + 1) 0); [lia|reflexivity].
Qed.

Lemma periodic_slot_delay (f c D P n : Z) :
  1 <= D < 2 ^ 32 -> 1 <= P < 2 ^ 32 -> 0 <= n ->
  1 <= delay (periodic_slot f c D P n) < 2 ^ 32.
Proof.
  intros HD HP Hn. unfold periodic_slot. simpl.
  destruct (Z.ltb_spec n D); [lia|].
  pose proof (Z.mod_pos_bound (n - D) P ltac:(lia)). lia.
Qed.

(** The next tick is an expiry exactly when the countdown stands at 1. *)
Lemma expiry_tick_delay (f c D P n : Z) :
  1 <= D < 2 ^ 32 -> 1 <= P < 2 ^ 32 -> 0 <= n ->
  expiry_tick D P (n + 1) = (delay (periodic_slot f c D P n) =? 1).
Proof.
  intros HD HP Hn. unfold periodic_slot, expiry_tick. simpl.
  destruct (Z.ltb_spec n D) as [Hlt|Hge].
  - destruct (Z.leb_spec D (n + 1)) as [Hle|Hgt]; simpl.
    + replace (n + 1 - D) with 0 by lia. rewrite Z.mod_0_l by lia.
      destruct (Z.eqb_spec (D - n) 1); [reflexivity|lia].
    + destruct (Z.eqb_spec (D - n) 1); [lia|reflexivity].
  - destruct (Z.leb_spec D (n + 1)) as [_|Hgt]; [|lia]. simpl.
    pose proof (div_mod_succ P (n - D) ltac:(lia) ltac:(lia)) as Hs.
    replace (n + 1 - D) with (n - D + 1) by lia.
    pose proof (Z.mod_pos_bound (n - D) P ltac:(lia)) as Hr.
    destruct (Z.eqb_spec ((n - D) mod P) (P - 1)) as [Heq|Hne];
      destruct Hs as [Hs1 _]; rewrite Hs1.
    + destruct (Z.eqb_spec (P - (n - D) mod P) 1); [reflexivity|lia].
    + destruct (Z.eqb_spec ((n - D) mod P + 1) 0); [lia|].
      destruct (Z.eqb_spec (P - (n - D) mod P) 1); [lia|reflexivity].
Qed.

(** The expiry ticks are [D], [D + P], [D + 2 P], ... *)
Lemma expiry_tick_spec (D P n : Z) :
  1 <= P ->
  expiry_tick D P n = true <-> exists k, 0 <= k /\ n = D + k * P.
Proof.
  intros HP. unfold expiry_tick. rewrite andb_true_iff, Z.leb_le, Z.eqb_eq.
  split.
  - intros [Hle Hmod]. exists ((n - D) / P). split.
    + apply Z.div_pos; lia.
    + pose proof (Z.div_mod (n - D) P ltac:(lia)). lia.
  - intros (k & Hk & ->). split; [nia|].
    replace (D + k * P - D) with (k * P) by lia. apply Z.mod_mul. lia.
Qed.

Lemma periodic_slot_step (f c D P n : Z) :
  f <> 0 -> 1 <= D < 2 ^ 32 -> 1 <= P < 2 ^ 32 -> 0 <= n ->
  update_task (periodic_slot f c D P n) = periodic_slot f c D P (n + 1).
Proof.
  intros Hf HD HP Hn.
  pose proof (periodic_slot_delay f c D P n HD HP Hn) as Hdelay.
  pose proof (expiry_tick_delay f c D P n HD HP Hn) as Hexp.
  pose proof (expiries_succ D P n ltac:(lia) ltac:(lia) Hn) as Hcount.
  rewrite Hexp in Hcount.
  destruct (Z.eqb_spec (delay (periodic_slot f c D P n)) 1) as [H1|Hn1].
  - rewrite update_task_expiring; [|exact Hf|rewrite H1; reflexivity].
    unfold expired, periodic_slot in *. simpl in *.
    destruct (Z.eqb_spec P 0) as [HP0|_]; [lia|].
    rewrite wrap32_add_1, Hcount. f_equal.
    destruct (Z.ltb_spec n D) as [Hlt|Hge].
    + destruct (Z.ltb_spec (n + 1) D); [lia|].
      replace (n + 1 - D) with 0 by lia. rewrite Z.mod_0_l by lia. lia.
    + destruct (Z.ltb_spec (n + 1) D); [lia|].
      pose proof (div_mod_succ P (n - D) ltac:(lia) ltac:(lia)) as Hs.
      replace (n + 1 - D) with (n - D + 1) by lia.
      destruct (Z.eqb_spec ((n - D) mod P) (P - 1)) as [Heq|Hne]; [|lia].
      destruct Hs as [Hs1 _]. rewrite Hs1. lia.
  - assert (Hw : wrap32 (delay (periodic_slot f c D P n) - 1)
                 = delay (periodic_slot f c D P n) - 1).
    { apply wrap32_small. unfold uint32. lia. }
    rewrite update_task_counting; [|exact Hf|rewrite Hw; lia].
    rewrite Hw. unfold periodic_slot, set_delay in *. simpl in *.
    rewrite Hcount. f_equal.
    destruct (Z.ltb_spec n D) as [Hlt|Hge].
    + destruct (Z.ltb_spec (n + 1) D); lia.
    + destruct (Z.ltb_spec (n + 1) D); [lia|].
      pose proof (div_mod_succ P (n - D) ltac:(lia) ltac:(lia)) as Hs.
      replace (n + 1 - D) with (n - D + 1) by lia.
      destruct (Z.eqb_spec ((n - D) mod P) (P - 1)) as [Heq|Hne]; [lia|].
      destruct Hs as [Hs1 _]. rewrite Hs1. lia.
Qed.

Lemma periodic_slot_0 (f c D P : Z) :
  1 <= D -> periodic_slot f c D P 0 = mk_sTask f c D P 0.
Proof.
  intros HD. unfold periodic_slot, expiries.
  destruct (Z.ltb_spec 0 D); [|lia]. rewrite Z.sub_0_r. reflexivity.
Qed.

Lemma periodic_slot_run (f c D P : Z) (n : nat) :
  f <> 0 -> 1 <= D < 2 ^ 32 -> 1 <= P < 2 ^ 32 ->
  update_task_n n (mk_sTask f c D P 0) = periodic_slot f c D P (Z.of_nat n).
Proof.
  intros Hf HD HP. induction n as [|n IH].
  - simpl. rewrite periodic_slot_0 by lia. reflexivity.
  - rewrite update_task_n_S, IH, periodic_slot_step by (try assumption; lia).
    f_equal. lia.
Qed.

End Countdown.

(** ** The main loop, seen from one slot *)

Section MainLoop.

Variable MAX : nat.

Lemma calls_of_app (i : nat) (tr1 tr2 : list call) :
  calls_of i (tr1 ++ tr2) = calls_of i tr1 ++ calls_of i tr2.
Proof. unfold calls_of. apply List.filter_app. Qed.

Lemma calls_of_due_calls (ticks : Z) (i b : nat) (l : list sTask_t) :
  calls_of i (due_calls ticks b l)
  = if (b <=? i)%nat
    then match l !! (i - b) with
         | Some t => if (0 <? runMe t)%Z
                     then [mk_call i (pTask t) (context t) ticks] else []
         | None => []
         end
    else [].
Proof.
  revert b. induction l as [|t l IH]; intros b.
  - simpl. destruct (b <=? i)%nat; reflexivity.
  - cbn [due_calls]. rewrite calls_of_app, IH.
    assert (Hhead :
      calls_of i (if (0 <? runMe t)%Z
                  then [mk_call b (pTask t) (context t) ticks] else [])
      = if (b =? i)%nat
        then (if (0 <? runMe t)%Z
              then [mk_call b (pTask t) (context t) ticks] else [])
        else []).
    { unfold calls_of. destruct (0 <? runMe t)%Z; simpl;
        destruct (b =? i)%nat; reflexivity. }
    rewrite Hhead.
    destruct (b =? i)%nat eqn:Hbi.
    + apply Nat.eqb_eq in Hbi. rewrite Hbi.
      rewrite (proj2 (Nat.leb_le i i)) by lia.
      rewrite (proj2 (Nat.leb_gt (S i) i)) by lia.
      rewrite Nat.sub_diag, app_nil_r. reflexivity.
    + apply Nat.eqb_neq in Hbi.
      destruct (Nat.leb_spec b i) as [Hle|Hgt].
      * rewrite (proj2 (Nat.leb_le (S b) i)) by lia.
        replace (i - b) with (S (i - S b)) by lia. reflexivity.
      * rewrite (proj2 (Nat.leb_gt (S b) i)) by lia. reflexivity.
Qed.

(** One round: the tick, then one pass of the dispatcher. *)
Lemma round_slot_spec (ticks : Z) (k : nat) (st : scheduler) (i : nat) :
  table_ok MAX st -> free_not_due st -> i < MAX ->
  exists st' tr,
    schedulerDispatchTasks MAX (Z.of_nat k) (schedulerUpdate MAX ticks st)
    = Some (st', tr)
    /\ table_ok MAX st' /\ free_not_due st'
    /\ errorCode st' = errorCode st
    /\ task_at st' i = round_slot (task_at st i)
    /\ calls_of i tr = round_calls i k (task_at st i).
Proof.
  intros Hok Hinv Hi.
  pose proof (schedulerUpdate_table_ok MAX ticks st Hok) as Hok1.
  pose proof (schedulerUpdate_free_not_due MAX ticks st Hok Hinv) as Hinv1.
  pose proof (schedulerUpdate_task_at MAX ticks st i Hok Hi) as Hat1.
  rewrite schedulerDispatchTasks_fmap
    by (try apply free_not_due_due_has_callable; assumption).
  eexists _, _. split; [reflexivity|].
  assert (Hl : schedulerTasks (schedulerUpdate MAX ticks st) !! i
               = Some (update_task (task_at st i))).
  { rewrite <- Hat1. apply lookup_task_at. unfold table_ok in Hok1. lia. }
  split; [|split; [|split; [|split]]].
  - unfold table_ok in *. simpl. rewrite length_fmap. exact Hok1.
  - unfold free_not_due in *. simpl. apply Forall_fmap.
    eapply Forall_impl; [exact Hinv1|]. intros t. apply slot_ok_dispatch_slot.
  - simpl. rewrite schedulerUpdate_fmap by exact Hok. reflexivity.
  - unfold task_at at 1. simpl. rewrite list_lookup_fmap, Hl. reflexivity.
  - rewrite calls_of_due_calls. simpl. rewrite Nat.sub_0_r, Hl. reflexivity.
Qed.

(** On a well-formed table whose free slots are not due the main loop
    never faults, and each slot goes its own way. *)
Lemma main_loop_slot (n : nat) (st : scheduler) (i : nat) :
  table_ok MAX st -> free_not_due st -> i < MAX ->
  exists st' tr,
    main_loop MAX n st = Some (st', tr)
    /\ table_ok MAX st' /\ free_not_due st'
    /\ errorCode st' = errorCode st
    /\ task_at st' i = Nat.iter n round_slot (task_at st i)
    /\ calls_of i tr = slot_calls i n (task_at st i).
Proof.
  intros Hok Hinv Hi. induction n as [|n IH].
  - exists st, []. simpl. repeat split; assumption.
  - destruct IH as (st1 & tr1 & Heq & Hok1 & Hinv1 & He1 & Hat1 & Hc1).
    destruct (round_slot_spec (Z.of_nat (S n)) (S n) st1 i Hok1 Hinv1 Hi)
      as (st2 & tr2 & Heq2 & Hok2 & Hinv2 & He2 & Hat2 & Hc2).
    exists st2, (tr1 ++ tr2). cbn [main_loop]. rewrite Heq, Heq2.
    split; [reflexivity|]. split; [exact Hok2|]. split; [exact Hinv2|].
    split; [congruence|]. split.
    + rewrite Hat2, Hat1. reflexivity.
    + rewrite calls_of_app, Hc1, Hc2, Hat1. reflexivity.
Qed.

End MainLoop.

(** *** A one-shot task in the main loop *)

Section OneShot.

Local Open Scope Z_scope.

Variables (i : nat) (f c D : Z).
Hypothesis Hf : f <> 0.
Hypothesis HD : uint32 D.

Let t0 : sTask_t := mk_sTask f c D 0 0.

(** Until its countdown runs out the slot only counts down and nothing is
    invoked from it. *)
Lemma one_shot_waiting (n : nat) :
  Z.of_nat n < ticks_to_expiry D ->
  Nat.iter n round_slot t0 = set_delay (wrap32 (D - Z.of_nat n)) t0
  /\ slot_calls i n t0 = [].
Proof.
  induction n as [|n IH]; intros Hn.
  - split; [|reflexivity]. simpl. rewrite Z.sub_0_r, wrap32_small by exact HD.
    reflexivity.
  - destruct (IH ltac:(lia)) as [Hslot Hcalls].
    assert (Hup : update_task (set_delay (wrap32 (D - Z.of_nat n)) t0)
                  = set_delay (wrap32 (D - Z.of_nat (S n))) t0).
    { rewrite update_task_counting; simpl delay; rewrite ?wrap32_sub_1.
      - unfold set_delay. simpl. do 2 f_equal. lia.
      - exact Hf.
      - replace (D - Z.of_nat n - 1) with (D - Z.of_nat (S n)) by lia.
        apply (wrap32_countdown D); [exact HD|lia|lia]. }
    split.
    + rewrite Nat.iter_succ, Hslot. unfold round_slot. rewrite Hup. reflexivity.
    + cbn [slot_calls]. rewrite Hcalls, Hslot. unfold round_calls.
      rewrite Hup. reflexivity.
Qed.

(** At the round in which the countdown runs out the callable is invoked
    once and the slot is zeroed. *)
Lemma one_shot_firing (n : nat) :
  Z.of_nat n = ticks_to_expiry D ->
  Nat.iter n round_slot t0 = zero_task
  /\ slot_calls i n t0 = [mk_call i f c (ticks_to_expiry D)].
Proof.
  intros Hn. destruct n as [|n].
  - exfalso. unfold ticks_to_expiry, uint32 in *.
    destruct (Z.eqb_spec D 0); simpl in Hn; lia.
  - destruct (one_shot_waiting n ltac:(lia)) as [Hslot Hcalls].
    assert (Hup : update_task (set_delay (wrap32 (D - Z.of_nat n)) t0)
                  = mk_sTask f c 0 0 1).
    { rewrite update_task_expiring; [reflexivity|exact Hf|].
      simpl delay. rewrite wrap32_sub_1.
      replace (D - Z.of_nat n - 1) with (D - ticks_to_expiry D) by lia.
      apply wrap32_expiry. exact HD. }
    split.
    + rewrite Nat.iter_succ, Hslot. unfold round_slot. rewrite Hup. reflexivity.
    + cbn [slot_calls]. rewrite Hcalls, Hslot. unfold round_calls.
      rewrite Hup, <- Hn. reflexivity.
Qed.

(** From then on the slot is free and nothing more is invoked from it. *)
Lemma one_shot_spent (n : nat) :
  ticks_to_expiry D <= Z.of_nat n ->
  Nat.iter n round_slot t0 = zero_task
  /\ slot_calls i n t0 = [mk_call i f c (ticks_to_expiry D)].
Proof.
  induction n as [|n IH]; intros Hn.
  - exfalso. unfold ticks_to_expiry, uint32 in *.
    destruct (Z.eqb_spec D 0); simpl in Hn; lia.
  - destruct (Z.eq_dec (Z.of_nat (S n)) (ticks_to_expiry D)) as [Heq|Hne].
    + apply one_shot_firing. exact Heq.
    + destruct (IH ltac:(lia)) as [Hslot Hcalls]. split.
      * rewrite Nat.iter_succ, Hslot. reflexivity.
      * cbn [slot_calls]. rewrite Hcalls, Hslot. reflexivity.
Qed.

End OneShot.

(** ** The size of the table under any request *)

Section Capacity.

Variable MAX : nat.

Lemma fold_dispatch_None (ticks : Z) (idx : list nat) :
  fold_left (fun acc i => dispatch_task MAX ticks i acc) idx None = None.
Proof. induction idx as [|i idx IH]; simpl; [reflexivity|exact IH]. Qed.

Lemma dispatch_task_length (ticks : Z) (i : nat) (st st' : scheduler)
    (tr tr' : list call) :
  dispatch_task MAX ticks i (Some (st, tr)) = Some (st', tr') ->
  length (schedulerTasks st') = length (schedulerTasks st).
Proof.
  unfold dispatch_task.
  destruct (0 <? runMe (task_at st i))%Z; [|intros [= <- _]; reflexivity].
  destruct (pTask (task_at st i) =? 0)%Z; [discriminate|].
  intros [= <- _].
  destruct (period (task_at st i) =? 0)%Z.
  - unfold schedulerDeleteTask.
    destruct (MAX <=? i)%nat; simpl; [apply length_insert|].
    destruct (pTask _ =? 0)%Z; simpl; rewrite !length_insert; reflexivity.
  - simpl. apply length_insert.
Qed.

Lemma fold_dispatch_length (ticks : Z) (idx : list nat) (st st' : scheduler)
    (tr tr' : list call) :
  fold_left (fun acc i => dispatch_task MAX ticks i acc) idx (Some (st, tr))
  = Some (st', tr') ->
  length (schedulerTasks st') = length (schedulerTasks st).
Proof.
  revert st tr. induction idx as [|i idx IH]; intros st tr; cbn [fold_left].
  - intros [= <- _]. reflexivity.
  - destruct (dispatch_task MAX ticks i (Some (st, tr))) as [[st1 tr1]|] eqn:Hd.
    + intros Hfold. rewrite (IH _ _ Hfold).
      exact (dispatch_task_length ticks i st st1 tr tr1 Hd).
    + rewrite fold_dispatch_None. discriminate.
Qed.

Lemma schedulerDispatchTasks_table_ok (ticks : Z) (st st' : scheduler)
    (tr : list call) :
  schedulerDispatchTasks MAX ticks st = Some (st', tr) ->
  table_ok MAX st -> table_ok MAX st'.
Proof.
  unfold schedulerDispatchTasks, table_ok.
  destruct (fold_left _ _ _) as [[st1 tr1]|] eqn:Hfold; [|discriminate].
  intros [= <- _] Hok. unfold schedulerReportStatus.
  rewrite (fold_dispatch_length _ _ _ _ _ _ Hfold). exact Hok.
Qed.

Lemma serve_table_ok (r : request) (st st' : scheduler) :
  serve MAX r st = Some st' -> table_ok MAX st -> table_ok MAX st'.
Proof.
  destruct r as [f c d p|i|i p|ticks|ticks]; simpl.
  - intros [= <-]. apply schedulerAddTask_table_ok.
  - intros [= <-]. apply schedulerDeleteTask_table_ok.
  - intros [= <-]. apply schedulerModifyTaskPeriod_table_ok.
  - intros [= <-]. apply schedulerUpdate_table_ok.
  - destruct (schedulerDispatchTasks MAX ticks st) as [[st1 tr1]|] eqn:Hd;
      [|discriminate].
    intros [= <-]. exact (schedulerDispatchTasks_table_ok _ _ _ _ Hd).
Qed.

Lemma serve_all_table_ok (rs : list request) (st st' : scheduler) :
  serve_all MAX rs st = Some st' -> table_ok MAX st -> table_ok MAX st'.
Proof.
  revert st. induction rs as [|r rs IH]; intros st; simpl.
  - intros [= <-]. tauto.
  - destruct (serve MAX r st) as [st1|] eqn:Hs; [|discriminate].
    intros Hrest Hok. apply (IH st1 Hrest).
    exact (serve_table_ok r st st1 Hs Hok).
Qed.

End Capacity.

(** * The registration interface *)

(** C3. On a table whose slots are all occupied, [schedulerAddTask]
    returns the sentinel [SCHEDULER_MAX_TASKS], sets [errorCode] and
    leaves every slot as it was; and whatever requests are then served,
    adds and deletes among them, the table keeps its
    [SCHEDULER_MAX_TASKS] slots, so that no more than that many are ever
    occupied at once. *)
Theorem add_task_table_full (MAX : nat) (st : scheduler) (f c d p : Z) :
  table_ok MAX st ->
  (forall j, j < MAX -> pTask (task_at st j) <> 0%Z) ->
  fst (schedulerAddTask MAX f c d p st) = MAX
  /\ errorCode (snd (schedulerAddTask MAX f c d p st)) = 2%Z
  /\ schedulerTasks (snd (schedulerAddTask MAX f c d p st)) = schedulerTasks st
  /\ (forall rs st', serve_all MAX rs st = Some st' ->
        table_ok MAX st' /\ occupied_slots st' <= MAX).
Proof.
  intros Hok Hfull.
  rewrite (schedulerAddTask_full MAX st f c d p Hfull). simpl.
  split; [reflexivity|]. split; [reflexivity|]. split; [reflexivity|].
  intros rs st' Hrun.
  pose proof (serve_all_table_ok MAX rs st st' Hrun Hok) as Hok'.
  split; [exact Hok'|]. apply occupied_slots_le. exact Hok'.
Qed.

Lemma add_task_table_full_witness :
  table_ok 2 two_tasks
  /\ fst (schedulerAddTask 2 9 3 1 1 two_tasks) = 2
  /\ errorCode (snd (schedulerAddTask 2 9 3 1 1 two_tasks)) = 2%Z
  /\ schedulerTasks (snd (schedulerAddTask 2 9 3 1 1 two_tasks))
     = schedulerTasks two_tasks
  /\ (forall rs st', serve_all 2 rs two_tasks = Some st' ->
        table_ok 2 st' /\ occupied_slots st' <= 2).
Proof.
  split; [reflexivity|].
  apply (add_task_table_full 2 two_tasks 9 3 1 1); [reflexivity|].
  intros j Hj. destruct j as [|[|j]]; simpl; [discriminate|discriminate|lia].
Defined.

(** C4. On a table with a free slot, [schedulerAddTask] writes the free
    slot of lowest index with the callable, context, delay and period it
    is given and with [runMe = 0], leaves every other slot and
    [errorCode] as they were, and returns that index; an index freed by
    [schedulerDeleteTask] is the one returned by the next
    [schedulerAddTask] when the slots below it are occupied. *)
Theorem add_task_lowest_free (MAX : nat) (st : scheduler) (f c d p : Z)
    (i : nat) :
  table_ok MAX st ->
  i < MAX ->
  pTask (task_at st i) = 0%Z ->
  exists k,
    k <= i
    /\ pTask (task_at st k) = 0%Z
    /\ (forall j, j < k -> pTask (task_at st j) <> 0%Z)
    /\ fst (schedulerAddTask MAX f c d p st) = k
    /\ task_at (snd (schedulerAddTask MAX f c d p st)) k = mk_sTask f c d p 0
    /\ (forall j, j <> k ->
          schedulerTasks (snd (schedulerAddTask MAX f c d p st)) !! j
          = schedulerTasks st !! j)
    /\ errorCode (snd (schedulerAddTask MAX f c d p st)) = errorCode st
    /\ (forall i', i' < MAX ->
          (forall j, j < i' -> pTask (task_at st j) <> 0%Z) ->
          fst (schedulerAddTask MAX f c d p (snd (schedulerDeleteTask MAX i' st)))
          = i').
Proof.
  intros Hok Hi Hfree.
  destruct (schedulerAddTask_cases MAX st f c d p)
    as [Hfull|(k & Hk & Hkfree & Hlow & Hadd)].
  - exfalso.
    destruct (find_gap_exit MAX st) as (_ & Hocc & Hgap). simpl in *.
    unfold schedulerAddTask in Hfull.
    destruct (Nat.eqb_spec (find_gap MAX MAX 0 st) MAX) as [Heq|Hne].
    + apply (Hocc i); [lia|exact Hfree].
    + injection Hfull as Hbad _. contradiction.
  - exists k. rewrite Hadd. simpl.
    assert (Hki : k <= i).
    { destruct (Nat.le_gt_cases k i) as [Hle|Hgt]; [exact Hle|].
      exfalso. exact (Hlow i Hgt Hfree). }
    split; [exact Hki|]. split; [exact Hkfree|]. split; [exact Hlow|].
    split; [reflexivity|]. split.
    { apply task_at_set_task_eq. unfold table_ok in Hok. lia. }
    split.
    { intros j Hj. apply list_lookup_insert_ne. congruence. }
    split; [reflexivity|].
    intros i' Hi' Hbelow.
    rewrite (schedulerAddTask_gap MAX _ f c d p i'); [reflexivity|exact Hi'| |].
    + unfold task_at. rewrite schedulerDeleteTask_tasks by exact Hi'.
      rewrite list_lookup_insert_eq by (unfold table_ok in Hok; lia).
      reflexivity.
    + intros j Hj. unfold task_at.
      rewrite schedulerDeleteTask_tasks by exact Hi'.
      rewrite list_lookup_insert_ne by lia. apply Hbelow. exact Hj.
Qed.

Lemma add_task_lowest_free_witness :
  table_ok 3 one_gap /\ 1 < 3 /\ pTask (task_at one_gap 1) = 0%Z
  /\ exists k,
    k <= 1
    /\ pTask (task_at one_gap k) = 0%Z
    /\ (forall j, j < k -> pTask (task_at one_gap j) <> 0%Z)
    /\ fst (schedulerAddTask 3 9 3 20 10 one_gap) = k
    /\ task_at (snd (schedulerAddTask 3 9 3 20 10 one_gap)) k
       = mk_sTask 9 3 20 10 0
    /\ (forall j, j <> k ->
          schedulerTasks (snd (schedulerAddTask 3 9 3 20 10 one_gap)) !! j
          = schedulerTasks one_gap !! j)
    /\ errorCode (snd (schedulerAddTask 3 9 3 20 10 one_gap)) = errorCode one_gap
    /\ (forall i', i' < 3 ->
          (forall j, j < i' -> pTask (task_at one_gap j) <> 0%Z) ->
          fst (schedulerAddTask 3 9 3 20 10 (snd (schedulerDeleteTask 3 i' one_gap)))
          = i').
Proof.
  split; [reflexivity|]. split; [lia|]. split; [reflexivity|].
  apply (add_task_lowest_free 3 one_gap 9 3 20 10 1); [reflexivity|lia|reflexivity].
Defined.

(** C7. [schedulerDeleteTask id] returns the error code and changes
    nothing when [id] is not below [SCHEDULER_MAX_TASKS]; on a slot
    without a callable it returns the error code and sets [errorCode]; on
    an occupied slot it returns success; in the last two cases slot [id]
    is zeroed.  No other slot is ever altered, and after a successful
    delete every further [schedulerDeleteTask id] returns the error code,
    sets [errorCode] and leaves the table as the first delete left it. *)
Theorem delete_task_cases (MAX : nat) (st : scheduler) (id : nat) :
  table_ok MAX st ->
  (MAX <= id -> schedulerDeleteTask MAX id st = ((-1)%Z, st))
  /\ (id < MAX -> pTask (task_at st id) = 0%Z ->
        fst (schedulerDeleteTask MAX id st) = (-1)%Z
        /\ errorCode (snd (schedulerDeleteTask MAX id st)) = 2%Z
        /\ task_at (snd (schedulerDeleteTask MAX id st)) id = zero_task)
  /\ (id < MAX -> pTask (task_at st id) <> 0%Z ->
        fst (schedulerDeleteTask MAX id st) = 0%Z
        /\ errorCode (snd (schedulerDeleteTask MAX id st)) = errorCode st
        /\ task_at (snd (schedulerDeleteTask MAX id st)) id = zero_task)
  /\ (forall j, j <> id ->
        schedulerTasks (snd (schedulerDeleteTask MAX id st)) !! j
        = schedulerTasks st !! j)
  /\ (id < MAX -> pTask (task_at st id) <> 0%Z ->
      forall n,
        let st1 := snd (schedulerDeleteTask MAX id st) in
        let stn := Nat.iter n (fun s => snd (schedulerDeleteTask MAX id s)) st1 in
        fst (schedulerDeleteTask MAX id stn) = (-1)%Z
        /\ errorCode (snd (schedulerDeleteTask MAX id stn)) = 2%Z
        /\ schedulerTasks (snd (schedulerDeleteTask MAX id stn))
           = schedulerTasks st1).
Proof.
  intros Hok. unfold table_ok in Hok.
  assert (Hzero : forall s, length (schedulerTasks s) = MAX -> id < MAX ->
            task_at (snd (schedulerDeleteTask MAX id s)) id = zero_task).
  { intros s Hs Hid. unfold task_at.
    rewrite schedulerDeleteTask_tasks by exact Hid.
    rewrite list_lookup_insert_eq by lia. reflexivity. }
  split; [apply schedulerDeleteTask_invalid|].
  split.
  { intros Hid Hz. pose proof (Hzero st Hok Hid) as Hz0.
    rewrite (schedulerDeleteTask_empty MAX st id Hid Hz) in *. simpl.
    split; [reflexivity|]. split; [reflexivity|exact Hz0]. }
  split.
  { intros Hid Hnz. pose proof (Hzero st Hok Hid) as Hz0.
    rewrite (schedulerDeleteTask_occupied MAX st id Hid Hnz) in *. simpl.
    split; [reflexivity|]. split; [reflexivity|exact Hz0]. }
  split.
  { intros j Hj. unfold schedulerDeleteTask.
    destruct (MAX <=? id)%nat; [reflexivity|].
    destruct (pTask (task_at st id) =? 0)%Z; simpl;
      apply list_lookup_insert_ne; congruence. }
  intros Hid Hnz n st1 stn.
  assert (Hst1 : length (schedulerTasks st1) = MAX
                 /\ schedulerTasks st1 !! id = Some zero_task).
  { subst st1. rewrite schedulerDeleteTask_tasks by exact Hid.
    rewrite length_insert. split; [exact Hok|].
    apply list_lookup_insert_eq. lia. }
  assert (Hstn : schedulerTasks stn = schedulerTasks st1).
  { subst stn. induction n as [|n IH]; [reflexivity|].
    rewrite Nat.iter_succ, schedulerDeleteTask_tasks by exact Hid.
    rewrite IH. apply list_insert_id. apply Hst1. }
  assert (Hempty : pTask (task_at stn id) = 0%Z).
  { unfold task_at. rewrite Hstn, (proj2 Hst1). reflexivity. }
  rewrite (schedulerDeleteTask_empty MAX stn id Hid Hempty). simpl.
  split; [reflexivity|]. split; [reflexivity|].
  rewrite Hstn. apply list_insert_id. apply Hst1.
Qed.

Lemma delete_task_cases_witness :
  table_ok 3 one_gap
  /\ schedulerDeleteTask 3 5 one_gap = ((-1)%Z, one_gap)
  /\ fst (schedulerDeleteTask 3 1 one_gap) = (-1)%Z
  /\ errorCode (snd (schedulerDeleteTask 3 1 one_gap)) = 2%Z
  /\ fst (schedulerDeleteTask 3 2 one_gap) = 0%Z
  /\ task_at (snd (schedulerDeleteTask 3 2 one_gap)) 2 = zero_task
  /\ fst (schedulerDeleteTask 3 2 (snd (schedulerDeleteTask 3 2 one_gap)))
     = (-1)%Z.
Proof.
  split; [reflexivity|].
  split.
  { apply (proj1 (delete_task_cases 3 one_gap 5 eq_refl)). lia. }
  destruct (delete_task_cases 3 one_gap 1 eq_refl) as (_ & Hempty & _).
  destruct (Hempty ltac:(lia) eq_refl) as (Hr & He & _).
  split; [exact Hr|]. split; [exact He|].
  destruct (delete_task_cases 3 one_gap 2 eq_refl) as (_ & _ & Hocc & _ & Hagain).
  destruct (Hocc ltac:(lia) ltac:(discriminate)) as (Hr2 & _ & Hz2).
  split; [exact Hr2|]. split; [exact Hz2|].
  exact (proj1 (Hagain ltac:(lia) ltac:(discriminate) 0)).
Defined.

(** C8. On an occupied slot [schedulerModifyTaskPeriod] returns success
    and writes the [period] field only: callable, context, delay and
    [runMe] of the slot, every other slot and [errorCode] are as before.
    The countdown under way is therefore the one of the unmodified table:
    tick after tick the slot differs from it in [period] alone, it expires
    at the same tick, and the delay reloaded at that tick is the new
    period. *)
Theorem modify_period_only (MAX : nat) (st : scheduler) (id : nat)
    (newPeriod : Z) :
  table_ok MAX st ->
  id < MAX ->
  pTask (task_at st id) <> 0%Z ->
  uint32 (delay (task_at st id)) ->
  let st' := snd (schedulerModifyTaskPeriod MAX id newPeriod st) in
  fst (schedulerModifyTaskPeriod MAX id newPeriod st) = 0%Z
  /\ task_at st' id = set_period newPeriod (task_at st id)
  /\ (forall j, j <> id -> schedulerTasks st' !! j = schedulerTasks st !! j)
  /\ errorCode st' = errorCode st
  /\ (forall n : nat,
        (Z.of_nat n < ticks_to_expiry (delay (task_at st id)))%Z ->
        task_at (run_ticks MAX n st') id
        = set_period newPeriod (task_at (run_ticks MAX n st) id)
        /\ runMe (task_at (run_ticks MAX n st') id) = runMe (task_at st id))
  /\ (forall n : nat,
        Z.of_nat n = ticks_to_expiry (delay (task_at st id)) ->
        task_at (run_ticks MAX n st) id = expired (task_at st id)
        /\ task_at (run_ticks MAX n st') id
           = expired (set_period newPeriod (task_at st id))).
Proof.
  intros Hok Hid Hnz Hd st'.
  assert (Hst' : st' = set_task st id (set_period newPeriod (task_at st id))).
  { subst st'. rewrite schedulerModifyTaskPeriod_occupied by assumption.
    reflexivity. }
  assert (Hat' : task_at st' id = set_period newPeriod (task_at st id)).
  { rewrite Hst'. apply task_at_set_task_eq. unfold table_ok in Hok. lia. }
  assert (Hok' : table_ok MAX st').
  { subst st'. apply schedulerModifyTaskPeriod_table_ok. exact Hok. }
  split.
  { rewrite schedulerModifyTaskPeriod_occupied by assumption. reflexivity. }
  split; [exact Hat'|]. split.
  { intros j Hj. rewrite Hst'. apply list_lookup_insert_ne. congruence. }
  split; [rewrite Hst'; reflexivity|]. split.
  - intros n Hn.
    rewrite !run_ticks_task_at by assumption. rewrite Hat'.
    rewrite (countdown_before_expiry (task_at st id) n Hnz Hd Hn).
    rewrite (countdown_before_expiry (set_period newPeriod (task_at st id)) n);
      [split; reflexivity|exact Hnz|exact Hd|exact Hn].
  - intros n Hn.
    rewrite !run_ticks_task_at by assumption. rewrite Hat'.
    rewrite (countdown_at_expiry (task_at st id) n Hnz Hd Hn).
    rewrite (countdown_at_expiry (set_period newPeriod (task_at st id)) n);
      [split; reflexivity|exact Hnz|exact Hd|exact Hn].
Qed.

Lemma modify_period_only_witness :
  table_ok 2 two_tasks /\ 0 < 2 /\ pTask (task_at two_tasks 0) <> 0%Z
  /\ uint32 (delay (task_at two_tasks 0))
  /\ fst (schedulerModifyTaskPeriod 2 0 50 two_tasks) = 0%Z
  /\ task_at (snd (schedulerModifyTaskPeriod 2 0 50 two_tasks)) 0
     = mk_sTask 7 1 300 50 0
  /\ task_at (run_ticks 2 300 (snd (schedulerModifyTaskPeriod 2 0 50 two_tasks))) 0
     = mk_sTask 7 1 50 50 1.
Proof.
  assert (Hok : table_ok 2 two_tasks) by reflexivity.
  assert (Hnz : pTask (task_at two_tasks 0) <> 0%Z) by discriminate.
  assert (Hd : uint32 (delay (task_at two_tasks 0))) by (unfold uint32; simpl; lia).
  destruct (modify_period_only 2 two_tasks 0 50 Hok ltac:(lia) Hnz Hd)
    as (Hr & Hat & _ & _ & _ & Hexp).
  split; [exact Hok|]. split; [lia|]. split; [exact Hnz|]. split; [exact Hd|].
  split; [exact Hr|]. split; [exact Hat|].
  exact (proj2 (Hexp 300 eq_refl)).
Defined.

(** C9, as amended.  A failing call of the registration interface always
    hands its error code to the caller: [SCHEDULER_MAX_TASKS] from
    [schedulerAddTask], [-1] from the other two.  [errorCode] is set, to
    [2], by [schedulerAddTask] on a full table and by
    [schedulerDeleteTask] on a slot without a callable;
    [schedulerDeleteTask] with an index out of range and every failing
    [schedulerModifyTaskPeriod] leave [errorCode], and the whole state,
    as they were. *)
Theorem registry_failures (MAX : nat) (st : scheduler) :
  (forall f c d p,
      fst (schedulerAddTask MAX f c d p st) = MAX ->
      errorCode (snd (schedulerAddTask MAX f c d p st)) = 2%Z)
  /\ (forall id,
        id < MAX -> pTask (task_at st id) = 0%Z ->
        fst (schedulerDeleteTask MAX id st) = (-1)%Z
        /\ errorCode (snd (schedulerDeleteTask MAX id st)) = 2%Z)
  /\ (forall id,
        MAX <= id ->
        fst (schedulerDeleteTask MAX id st) = (-1)%Z
        /\ snd (schedulerDeleteTask MAX id st) = st)
  /\ (forall id p,
        MAX <= id \/ pTask (task_at st id) = 0%Z ->
        fst (schedulerModifyTaskPeriod MAX id p st) = (-1)%Z
        /\ snd (schedulerModifyTaskPeriod MAX id p st) = st)
  /\ (forall id,
        fst (schedulerDeleteTask MAX id st) = (-1)%Z <->
        MAX <= id \/ pTask (task_at st id) = 0%Z)
  /\ (forall id p,
        fst (schedulerModifyTaskPeriod MAX id p st) = (-1)%Z <->
        MAX <= id \/ pTask (task_at st id) = 0%Z).
Proof.
  split.
  { intros f c d p Hret.
    destruct (schedulerAddTask_cases MAX st f c d p)
      as [Hfull|(k & Hk & _ & _ & Hadd)].
    - rewrite Hfull. reflexivity.
    - rewrite Hadd in Hret. simpl in Hret. lia. }
  split.
  { intros id Hid Hz. rewrite schedulerDeleteTask_empty by assumption.
    split; reflexivity. }
  split.
  { intros id Hid. rewrite schedulerDeleteTask_invalid by assumption.
    split; reflexivity. }
  split.
  { intros id p Hfail. rewrite schedulerModifyTaskPeriod_fail by assumption.
    split; reflexivity. }
  split.
  - intros id. unfold schedulerDeleteTask.
    destruct (Nat.leb_spec MAX id) as [Hge|Hlt]; simpl; [tauto|].
    destruct (Z.eqb_spec (pTask (task_at st id)) 0) as [Hz|Hnz]; simpl.
    + tauto.
    + split; [discriminate|]. intros [H|H]; [lia|contradiction].
  - intros id p. unfold schedulerModifyTaskPeriod.
    destruct (Nat.leb_spec MAX id) as [Hge|Hlt]; simpl; [tauto|].
    destruct (Z.eqb_spec (pTask (task_at st id)) 0) as [Hz|Hnz]; simpl.
    + tauto.
    + split; [discriminate|]. intros [H|H]; [lia|contradiction].
Qed.

(** C9, as stated, fails: on the freshly initialised table of four slots
    [schedulerModifyTaskPeriod] fails on an index out of range and on an
    empty slot, and [schedulerDeleteTask] fails on an index out of range,
    and each time [errorCode] still reads [0], no error. *)
Lemma registry_failure_not_latched :
  let st := schedulerInit 4 (boot 4) in
  errorCode st = 0%Z
  /\ fst (schedulerModifyTaskPeriod 4 9 100 st) = (-1)%Z
  /\ errorCode (snd (schedulerModifyTaskPeriod 4 9 100 st)) = 0%Z
  /\ fst (schedulerModifyTaskPeriod 4 1 100 st) = (-1)%Z
  /\ errorCode (snd (schedulerModifyTaskPeriod 4 1 100 st)) = 0%Z
  /\ fst (schedulerDeleteTask 4 9 st) = (-1)%Z
  /\ errorCode (snd (schedulerDeleteTask 4 9 st)) = 0%Z.
Proof. vm_compute. repeat split. Qed.

(** * Reachable states *)

(** C10. From the table left by [schedulerInit], any sequence of
    [schedulerAddTask], [schedulerDeleteTask], [schedulerModifyTaskPeriod],
    [schedulerUpdate] and [schedulerDispatchTasks] runs to its end with no
    call through a null pointer, and in the state it reaches every slot
    with [runMe > 0] has a callable, so that one more pass of the
    dispatcher returns as well. *)
Theorem due_slots_have_callable (MAX : nat) (st0 : scheduler)
    (rs : list request) :
  table_ok MAX st0 ->
  exists st,
    serve_all MAX rs (schedulerInit MAX st0) = Some st
    /\ due_has_callable st
    /\ (forall ticks, exists st' tr,
          schedulerDispatchTasks MAX ticks st = Some (st', tr)).
Proof.
  intros Hok0. rewrite (schedulerInit_boot MAX st0 Hok0).
  destruct (serve_all_returns MAX rs (boot MAX)
              (boot_table_ok MAX) (boot_free_not_due MAX))
    as (st & Hrun & Hok & Hinv).
  exists st. split; [exact Hrun|]. split.
  - apply free_not_due_due_has_callable. exact Hinv.
  - intros ticks.
    destruct (schedulerDispatchTasks_returns MAX ticks st Hok Hinv)
      as (st' & tr & Hd & _).
    exists st', tr. exact Hd.
Qed.

Lemma due_slots_have_callable_witness :
  table_ok 2 two_tasks
  /\ exists st,
    serve_all 2 [AddTask 0 5 1 0; TickStep 1; DispatchOnce 1; DeleteTask 0;
                 AddTask 9 5 1 3; TickStep 2; ModifyTaskPeriod 0 0;
                 DispatchOnce 2]
              (schedulerInit 2 two_tasks) = Some st
    /\ due_has_callable st
    /\ (forall ticks, exists st' tr,
          schedulerDispatchTasks 2 ticks st = Some (st', tr)).
Proof.
  split; [reflexivity|].
  apply (due_slots_have_callable 2 two_tasks); reflexivity.
Defined.

(** * Expiry of registered tasks *)

Lemma schedulerAddTask_success (MAX : nat) (st st1 : scheduler)
    (f c d p : Z) (id : nat) :
  table_ok MAX st ->
  schedulerAddTask MAX f c d p st = (id, st1) ->
  id < MAX ->
  table_ok MAX st1
  /\ task_at st1 id = mk_sTask f c d p 0
  /\ (free_not_due st -> free_not_due st1).
Proof.
  intros Hok Hadd Hid.
  pose proof (schedulerAddTask_table_ok MAX st f c d p Hok) as Hok1.
  pose proof (schedulerAddTask_free_not_due MAX st f c d p) as Hinv1.
  destruct (schedulerAddTask_cases MAX st f c d p)
    as [Hfull|(k & Hk & _ & _ & Hgap)].
  - rewrite Hfull in Hadd. injection Hadd as Hbad _. lia.
  - rewrite Hadd in Hok1, Hinv1. simpl in Hok1, Hinv1.
    rewrite Hgap in Hadd. injection Hadd as <- <-.
    split; [exact Hok1|]. split; [|exact Hinv1].
    apply task_at_set_task_eq. unfold table_ok in Hok. lia.
Qed.

(** C1, as amended.  A task registered with delay [D >= 1] and period
    [P >= 1] stays in its slot under the ticks, and tick number [n + 1]
    after the registration increments its [runMe] and reloads its delay
    with [P] exactly when it is one of the ticks [D], [D + P],
    [D + 2 P], ...; at every other tick [runMe] is unchanged and the
    delay goes down by one.  After any number of ticks [runMe] is the
    number of those expiry ticks so far, as a 32-bit counter.  (The delay
    [D = 0] is left out.) *)
Theorem periodic_task_expiries (MAX : nat) (st st1 : scheduler)
    (f c D P : Z) (id : nat) :
  table_ok MAX st ->
  f <> 0%Z ->
  (1 <= D < 2 ^ 32)%Z ->
  (1 <= P < 2 ^ 32)%Z ->
  schedulerAddTask MAX f c D P st = (id, st1) ->
  id < MAX ->
  forall n : nat,
    let before := task_at (run_ticks MAX n st1) id in
    let after := task_at (run_ticks MAX (S n) st1) id in
    pTask after = f /\ context after = c /\ period after = P
    /\ (if expiry_tick D P (Z.of_nat (S n))
        then runMe after = wrap32 (runMe before + 1) /\ delay after = P
        else runMe after = runMe before /\ delay after = (delay before - 1)%Z)
    /\ runMe after = wrap32 (expiries D P (Z.of_nat (S n))).
Proof.
  intros Hok Hf HD HP Hadd Hid n before after.
  destruct (schedulerAddTask_success MAX st st1 f c D P id Hok Hadd Hid)
    as (Hok1 & Hat1 & _).
  assert (Hbefore : before = periodic_slot f c D P (Z.of_nat n)).
  { subst before. rewrite run_ticks_task_at, Hat1 by assumption.
    apply periodic_slot_run; assumption. }
  assert (Hafter : after = periodic_slot f c D P (Z.of_nat (S n))).
  { subst after. rewrite run_ticks_task_at, Hat1 by assumption.
    apply periodic_slot_run; assumption. }
  assert (Hstep : after = update_task before).
  { rewrite Hafter, Hbefore, periodic_slot_step by (try assumption; lia).
    f_equal. lia. }
  pose proof (periodic_slot_delay f c D P (Z.of_nat n) HD HP ltac:(lia)) as Hdelay.
  pose proof (expiry_tick_delay f c D P (Z.of_nat n) HD HP ltac:(lia)) as Hexp.
  replace (Z.of_nat n + 1)%Z with (Z.of_nat (S n)) in Hexp by lia.
  rewrite <- Hbefore in Hdelay, Hexp.
  assert (Hfb : pTask before <> 0%Z) by (rewrite Hbefore; exact Hf).
  assert (Hpb : period before = P) by (rewrite Hbefore; reflexivity).
  split; [rewrite Hafter; reflexivity|].
  split; [rewrite Hafter; reflexivity|].
  split; [rewrite Hafter; reflexivity|].
  split; [|rewrite Hafter; reflexivity].
  rewrite Hexp, Hstep.
  destruct (Z.eqb_spec (delay before) 1) as [H1|Hn1].
  - rewrite update_task_expiring; [|exact Hfb|rewrite H1; reflexivity].
    unfold expired. simpl. rewrite Hpb.
    destruct (Z.eqb_spec P 0) as [HP0|_]; [lia|]. split; reflexivity.
  - assert (Hw : wrap32 (delay before - 1) = (delay before - 1)%Z).
    { apply wrap32_small. unfold uint32. lia. }
    rewrite update_task_counting; [|exact Hfb|rewrite Hw; lia].
    simpl. split; [reflexivity|exact Hw].
Qed.

Lemma periodic_task_expiries_witness :
  let st1 := snd (schedulerAddTask 3 9 3 300 1000 one_gap) in
  table_ok 3 one_gap
  /\ fst (schedulerAddTask 3 9 3 300 1000 one_gap) = 1
  /\ expiry_tick 300 1000 (Z.of_nat 1300) = true
  /\ runMe (task_at (run_ticks 3 1300 st1) 1)
     = wrap32 (runMe (task_at (run_ticks 3 1299 st1) 1) + 1)
  /\ delay (task_at (run_ticks 3 1300 st1) 1) = 1000%Z
  /\ runMe (task_at (run_ticks 3 1300 st1) 1) = 2%Z.
Proof.
  intros st1.
  assert (Hok : table_ok 3 one_gap) by reflexivity.
  assert (Hadd : schedulerAddTask 3 9 3 300 1000 one_gap = (1, st1)) by reflexivity.
  destruct (periodic_task_expiries 3 one_gap st1 9 3 300 1000 1 Hok
              ltac:(discriminate) ltac:(lia) ltac:(lia) Hadd ltac:(lia) 1299)
    as (_ & _ & _ & Htick & Hcount).
  split; [exact Hok|]. split; [reflexivity|]. split; [reflexivity|].
  change (expiry_tick 300 1000 (Z.of_nat 1300)) with true in Htick.
  destruct Htick as [Hrun Hdelay].
  split; [exact Hrun|]. split; [exact Hdelay|]. exact Hcount.
Defined.

(** C1, as stated, fails for [D = 0]: a task registered with delay [0]
    and period [2] on the initialised table has not been marked due at
    tick [2] nor at tick [4], [runMe] is still [0] there, and its delay,
    wrapped to [2^32 - 1] by the first tick, is still counting down. *)
Lemma periodic_zero_delay_not_due :
  let st1 := snd (schedulerAddTask 2 7 9 0 2 (schedulerInit 2 (boot 2))) in
  fst (schedulerAddTask 2 7 9 0 2 (schedulerInit 2 (boot 2))) = 0
  /\ expiry_tick 0 2 2 = true
  /\ expiry_tick 0 2 4 = true
  /\ task_at (run_ticks 2 1 st1) 0 = mk_sTask 7 9 4294967295 2 0
  /\ task_at (run_ticks 2 2 st1) 0 = mk_sTask 7 9 4294967294 2 0
  /\ task_at (run_ticks 2 4 st1) 0 = mk_sTask 7 9 4294967292 2 0.
Proof. vm_compute. repeat split. Qed.

(** X13. A one-shot task registered with a delay [D >= 1], in a main
    loop that makes one pass of the dispatcher after every tick: its
    callable is
    invoked once, in round [D], with the context it was registered with;
    before that round the slot counts down, from that round on the slot
    is zeroed and nothing more is invoked from it. *)
Lemma one_shot_fires_once (MAX : nat) (st st1 : scheduler) (f c D : Z)
    (id : nat) (n : nat) :
  table_ok MAX st ->
  free_not_due st ->
  f <> 0%Z ->
  (1 <= D < 2 ^ 32)%Z ->
  schedulerAddTask MAX f c D 0 st = (id, st1) ->
  id < MAX ->
  exists st' tr,
    main_loop MAX n st1 = Some (st', tr)
    /\ ((Z.of_nat n < D)%Z ->
        calls_of id tr = []
        /\ task_at st' id = mk_sTask f c (D - Z.of_nat n) 0 0)
    /\ ((D <= Z.of_nat n)%Z ->
        calls_of id tr = [mk_call id f c D]
        /\ task_at st' id = zero_task).
Proof.
  intros Hok Hinv Hf HD Hadd Hid.
  destruct (schedulerAddTask_success MAX st st1 f c D 0 id Hok Hadd Hid)
    as (Hok1 & Hat1 & Hinv1).
  destruct (main_loop_slot MAX n st1 id Hok1 (Hinv1 Hinv) Hid)
    as (st' & tr & Hrun & _ & _ & _ & Hslot & Hcalls).
  exists st', tr. split; [exact Hrun|].
  rewrite Hat1 in Hslot, Hcalls. rewrite Hslot, Hcalls.
  assert (HDu : uint32 D) by (unfold uint32; lia).
  assert (HT : ticks_to_expiry D = D).
  { unfold ticks_to_expiry. destruct (Z.eqb_spec D 0); [lia|reflexivity]. }
  split.
  - intros Hn.
    destruct (one_shot_waiting id f c D Hf HDu n ltac:(lia)) as [-> ->].
    split; [reflexivity|].
    rewrite wrap32_small by (unfold uint32; lia). reflexivity.
  - intros Hn.
    destruct (one_shot_spent id f c D Hf HDu n ltac:(lia)) as [-> ->].
    rewrite HT. split; reflexivity.
Qed.

(** C2 fails for [D = 0].  A one-shot task registered with delay [0] is
    not invoked in round 1: the first tick wraps its delay to
    [2^32 - 1], and through every round [n] below [2^32] of a main loop
    that dispatches after each tick, nothing is invoked from its slot,
    which still holds the task, counting down. *)
Theorem one_shot_zero_delay_waits (MAX : nat) (st st1 : scheduler) (f c : Z)
    (id : nat) (n : nat) :
  table_ok MAX st ->
  free_not_due st ->
  f <> 0%Z ->
  schedulerAddTask MAX f c 0 0 st = (id, st1) ->
  id < MAX ->
  (1 <= Z.of_nat n < 2 ^ 32)%Z ->
  exists st' tr,
    main_loop MAX n st1 = Some (st', tr)
    /\ calls_of id tr = []
    /\ task_at st' id = mk_sTask f c (2 ^ 32 - Z.of_nat n) 0 0.
Proof.
  intros Hok Hinv Hf Hadd Hid Hn.
  destruct (schedulerAddTask_success MAX st st1 f c 0 0 id Hok Hadd Hid)
    as (Hok1 & Hat1 & Hinv1).
  destruct (main_loop_slot MAX n st1 id Hok1 (Hinv1 Hinv) Hid)
    as (st' & tr & Hrun & _ & _ & _ & Hslot & Hcalls).
  exists st', tr. split; [exact Hrun|].
  rewrite Hat1 in Hslot, Hcalls. rewrite Hslot, Hcalls.
  assert (H0 : uint32 0) by (unfold uint32; lia).
  destruct (one_shot_waiting id f c 0 Hf H0 n ltac:(exact (proj2 Hn)))
    as [-> ->].
  split; [reflexivity|].
  rewrite wrap32_below by lia. reflexivity.
Qed.

Lemma one_shot_zero_delay_waits_witness :
  let st := schedulerInit 2 (boot 2) in
  let st1 := snd (schedulerAddTask 2 7 9 0 0 st) in
  table_ok 2 st /\ free_not_due st
  /\ schedulerAddTask 2 7 9 0 0 st = (0, st1)
  /\ exists st' tr,
      main_loop 2 1 st1 = Some (st', tr)
      /\ calls_of 0 tr = []
      /\ task_at st' 0 = mk_sTask 7 9 (2 ^ 32 - 1) 0 0.
Proof.
  intros st st1.
  assert (Hok : table_ok 2 st) by reflexivity.
  assert (Hinv : free_not_due st).
  { repeat constructor. }
  split; [exact Hok|]. split; [exact Hinv|]. split; [reflexivity|].
  apply (one_shot_zero_delay_waits 2 st st1 7 9 0 1 Hok Hinv);
    [discriminate|reflexivity|lia|simpl; lia].
Defined.

(** C5 fails on a spent one-shot task.  Registered with delay [1] and
    period [0] on the initialised table, the task is due after the first
    tick, with its delay at zero; the second tick, with no dispatch in
    between, takes the delay from [0] up to [2^32 - 1]. *)
Theorem spent_one_shot_delay_wraps :
  let st1 := snd (schedulerAddTask 2 7 9 1 0 (schedulerInit 2 (boot 2))) in
  task_at st1 0 = mk_sTask 7 9 1 0 0
  /\ task_at (run_ticks 2 1 st1) 0 = mk_sTask 7 9 0 0 1
  /\ task_at (run_ticks 2 2 st1) 0 = mk_sTask 7 9 4294967295 0 1
  /\ (delay (task_at (run_ticks 2 1 st1) 0)
      < delay (task_at (run_ticks 2 2 st1) 0))%Z.
Proof. vm_compute. repeat split. Qed.

(** C6 fails on the same run.  Once the one-shot task is due, with its
    delay at zero, the ticks that follow without a dispatch do not
    increment [runMe] again: it reads [1] after the first tick and still
    [1] after the second, the third and the tenth. *)
Theorem spent_one_shot_not_counted_again :
  let st1 := snd (schedulerAddTask 2 7 9 1 0 (schedulerInit 2 (boot 2))) in
  period (task_at (run_ticks 2 1 st1) 0) = 0%Z
  /\ delay (task_at (run_ticks 2 1 st1) 0) = 0%Z
  /\ runMe (task_at (run_ticks 2 1 st1) 0) = 1%Z
  /\ runMe (task_at (run_ticks 2 2 st1) 0) = 1%Z
  /\ runMe (task_at (run_ticks 2 3 st1) 0) = 1%Z
  /\ runMe (task_at (run_ticks 2 10 st1) 0) = 1%Z.
Proof. vm_compute. repeat split. Qed.

(** * Further properties of the registration interface *)

Section RegistryMore.

Variable MAX : nat.

Lemma occupied_true (t : sTask_t) : occupied t = true <-> pTask t <> 0%Z.
Proof.
  unfold occupied. destruct (Z.eqb_spec (pTask t) 0); simpl; split;
    congruence.
Qed.

Lemma occupied_false (t : sTask_t) : occupied t = false <-> pTask t = 0%Z.
Proof.
  unfold occupied. destruct (Z.eqb_spec (pTask t) 0); simpl; split;
    congruence.
Qed.

(** Overwriting one slot moves the count of occupied slots by the
    occupancy of what is written against what was there. *)
Lemma occupied_count_insert (l : list sTask_t) (i : nat) (t old : sTask_t) :
  l !! i = Some old ->
  length (List.filter occupied (<[i := t]> l)) + Nat.b2n (occupied old)
  = length (List.filter occupied l) + Nat.b2n (occupied t).
Proof.
  revert i. induction l as [|x l IH]; intros i Hl; [discriminate|].
  destruct i as [|i]; simpl in *.
  - injection Hl as ->.
    destruct (occupied t), (occupied old); simpl; lia.
  - specialize (IH i Hl).
    destruct (occupied x); simpl; lia.
Qed.

Lemma occupied_count_fmap (g : sTask_t -> sTask_t) (l : list sTask_t) :
  (forall t, occupied (g t) = occupied t) ->
  length (List.filter occupied (g <$> l)) = length (List.filter occupied l).
Proof.
  intros Hg. induction l as [|x l IH]; [reflexivity|].
  rewrite fmap_cons. cbn [List.filter]. rewrite Hg.
  destruct (occupied x); cbn [length]; rewrite IH; reflexivity.
Qed.

Lemma occupied_count_zero (n : nat) :
  length (List.filter occupied (replicate n zero_task)) = 0.
Proof. induction n as [|n IH]; [reflexivity|exact IH]. Qed.

(** Filling a table whose occupied slots come first. *)
Lemma add_tasks_fill (reqs : list (Z * Z * Z * Z)) (occ : list sTask_t)
    (r : nat) (e : Z) :
  Forall (fun t => pTask t <> 0%Z) occ ->
  Forall (fun q => pTask (new_task q) <> 0%Z) reqs ->
  length occ + r = MAX ->
  let res := add_tasks MAX reqs
               (mk_scheduler (occ ++ replicate r zero_task) e) in
  length (fst res) = length reqs
  /\ (forall k, k < length reqs ->
        fst res !! k = Some (Nat.min (length occ + k) MAX))
  /\ schedulerTasks (snd res)
     = occ ++ (new_task <$> take r reqs)
           ++ replicate (r - length reqs) zero_task
  /\ errorCode (snd res) = (if (length reqs <=? r)%nat then e else 2%Z).
Proof.
  revert occ r e.
  induction reqs as [|[[[f c] d] p] rest IH]; intros occ r e Hocc Hreqs Hlen.
  - simpl. split; [reflexivity|]. split; [intros k Hk; lia|].
    split; [|reflexivity]. rewrite take_nil, Nat.sub_0_r. reflexivity.
  - apply Forall_cons in Hreqs. destruct Hreqs as [Hf Hrest]. simpl in Hf.
    assert (Hbelow : forall j, j < length occ ->
              pTask (task_at (mk_scheduler (occ ++ replicate r zero_task) e) j)
              <> 0%Z).
    { intros j Hj. unfold task_at. simpl. rewrite lookup_app_l by exact Hj.
      destruct (lookup_lt_is_Some_2 occ j Hj) as [x Hx]. rewrite Hx. simpl.
      exact (proj1 (Forall_lookup _ _) Hocc j x Hx). }
    destruct r as [|r'].
    + assert (Hfull : schedulerAddTask MAX f c d p
                        (mk_scheduler (occ ++ replicate 0 zero_task) e)
                      = (MAX, mk_scheduler (occ ++ replicate 0 zero_task) 2)).
      { apply schedulerAddTask_full. intros j Hj. apply Hbelow. lia. }
      cbn [add_tasks]. rewrite Hfull. cbn [fst snd].
      destruct (IH occ 0 2%Z Hocc Hrest Hlen) as (Hl & Hk & Ht & He).
      split; [cbn [length]; rewrite Hl; reflexivity|].
      split; [|split].
      * intros k Hk'. cbn [length] in Hk'. destruct k as [|k].
        -- cbn. f_equal. lia.
        -- rewrite lookup_cons_ne_0 by lia. cbn [Nat.pred].
           rewrite Hk by lia. f_equal. lia.
      * rewrite Ht. rewrite !take_0. reflexivity.
      * rewrite He. destruct (length rest <=? 0)%nat; reflexivity.
    + assert (Hgap : schedulerAddTask MAX f c d p
                       (mk_scheduler (occ ++ replicate (S r') zero_task) e)
                     = (length occ,
                        mk_scheduler ((occ ++ [mk_sTask f c d p 0])
                                        ++ replicate r' zero_task) e)).
      { rewrite (schedulerAddTask_gap MAX _ f c d p (length occ)).
        - unfold set_task. simpl. f_equal. f_equal.
          rewrite insert_app_r_alt by lia. rewrite Nat.sub_diag. simpl.
          rewrite <- app_assoc. reflexivity.
        - lia.
        - unfold task_at. simpl. rewrite lookup_app_r by lia.
          rewrite Nat.sub_diag. reflexivity.
        - exact Hbelow. }
      cbn [add_tasks]. rewrite Hgap. cbn [fst snd].
      assert (Hocc' : Forall (fun t => pTask t <> 0%Z)
                             (occ ++ [mk_sTask f c d p 0])).
      { apply Forall_app. split; [exact Hocc|]. repeat constructor. exact Hf. }
      assert (Hlen' : length (occ ++ [mk_sTask f c d p 0]) + r' = MAX).
      { rewrite length_app. simpl. lia. }
      destruct (IH _ r' e Hocc' Hrest Hlen') as (Hl & Hk & Ht & He).
      rewrite length_app in Hk. cbn [length] in Hk.
      split; [cbn [length]; rewrite Hl; reflexivity|].
      split; [|split].
      * intros k Hk'. cbn [length] in Hk'. destruct k as [|k].
        -- cbn. f_equal. lia.
        -- rewrite lookup_cons_ne_0 by lia. cbn [Nat.pred].
           rewrite Hk by lia. f_equal. lia.
      * rewrite Ht. rewrite <- app_assoc. reflexivity.
      * rewrite He. reflexivity.
Qed.

End RegistryMore.

(** X1. [schedulerInit] empties the table whatever it held: every slot
    is zeroed, no slot is occupied, and [errorCode] is [0] although the
    deletions it makes set it on their way; a second call changes
    nothing. *)
Theorem init_clears_table (MAX : nat) (st : scheduler) :
  table_ok MAX st ->
  schedulerTasks (schedulerInit MAX st) = replicate MAX zero_task
  /\ errorCode (schedulerInit MAX st) = 0%Z
  /\ occupied_slots (schedulerInit MAX st) = 0
  /\ (forall i, fst (schedulerDeleteTask MAX i (schedulerInit MAX st)) = (-1)%Z)
  /\ schedulerInit MAX (schedulerInit MAX st) = schedulerInit MAX st.
Proof.
  intros Hok. rewrite (schedulerInit_boot MAX st Hok).
  split; [reflexivity|]. split; [reflexivity|].
  split; [apply occupied_count_zero|]. split.
  - intros i. unfold schedulerDeleteTask.
    destruct (Nat.leb_spec MAX i) as [Hge|Hlt]; [reflexivity|].
    unfold task_at, boot. simpl.
    rewrite lookup_replicate_2 by exact Hlt. reflexivity.
  - apply schedulerInit_boot. apply boot_table_ok.
Qed.

Lemma init_clears_table_witness :
  table_ok 2 two_tasks
  /\ schedulerTasks (schedulerInit 2 two_tasks) = [zero_task; zero_task]
  /\ errorCode (schedulerInit 2 two_tasks) = 0%Z
  /\ occupied_slots (schedulerInit 2 two_tasks) = 0.
Proof.
  destruct (init_clears_table 2 two_tasks eq_refl) as (Ht & He & Ho & _).
  split; [reflexivity|]. split; [exact Ht|]. split; [exact He|exact Ho].
Defined.

(** X2. Registrations of non-null callables made one after the other on
    an initialised table are given the indexes [0], [1], [2], ... in
    order and fill the table from the front; once
    [SCHEDULER_MAX_TASKS] of them have been accepted every further one
    is refused with the sentinel, and [errorCode] is set exactly when
    one has been refused. *)
Theorem fresh_table_fill (MAX : nat) (st : scheduler)
    (reqs : list (Z * Z * Z * Z)) :
  table_ok MAX st ->
  Forall (fun q => pTask (new_task q) <> 0%Z) reqs ->
  let res := add_tasks MAX reqs (schedulerInit MAX st) in
  length (fst res) = length reqs
  /\ (forall k, k < length reqs -> fst res !! k = Some (Nat.min k MAX))
  /\ schedulerTasks (snd res)
     = (new_task <$> take MAX reqs) ++ replicate (MAX - length reqs) zero_task
  /\ errorCode (snd res) = (if (length reqs <=? MAX)%nat then 0%Z else 2%Z).
Proof.
  intros Hok Hreqs. rewrite (schedulerInit_boot MAX st Hok).
  exact (add_tasks_fill MAX reqs [] MAX 0%Z (Forall_nil_2 _) Hreqs eq_refl).
Qed.

Lemma fresh_table_fill_witness :
  let reqs := [(7, 1, 300, 1000); (8, 2, 1000, 0); (9, 3, 1, 1)]%Z in
  table_ok 2 two_tasks
  /\ fst (add_tasks 2 reqs (schedulerInit 2 two_tasks)) !! 0 = Some 0
  /\ fst (add_tasks 2 reqs (schedulerInit 2 two_tasks)) !! 1 = Some 1
  /\ fst (add_tasks 2 reqs (schedulerInit 2 two_tasks)) !! 2 = Some 2
  /\ errorCode (snd (add_tasks 2 reqs (schedulerInit 2 two_tasks))) = 2%Z.
Proof.
  intros reqs.
  assert (Hreqs : Forall (fun q => pTask (new_task q) <> 0%Z) reqs).
  { repeat constructor; discriminate. }
  destruct (fresh_table_fill 2 two_tasks reqs eq_refl Hreqs)
    as (_ & Hk & _ & He).
  split; [reflexivity|].
  split; [exact (Hk 0 ltac:(simpl; lia))|].
  split; [exact (Hk 1 ltac:(simpl; lia))|].
  split; [exact (Hk 2 ltac:(simpl; lia))|exact He].
Defined.

(** X3. [schedulerAddTask] does not check its function pointer.  A
    registration with a null callable returns an index like any other,
    but the slot it wrote still counts as free: the number of occupied
    slots is unchanged, the next registration is given the same index,
    the tick update leaves the slot alone, and [schedulerDeleteTask] and
    [schedulerModifyTaskPeriod] on the index just returned fail. *)
Theorem add_null_callable (MAX : nat) (st st1 : scheduler) (c d p : Z)
    (k : nat) :
  table_ok MAX st ->
  schedulerAddTask MAX 0 c d p st = (k, st1) ->
  k < MAX ->
  task_at st1 k = mk_sTask 0 c d p 0
  /\ occupied_slots st1 = occupied_slots st
  /\ (forall f' c' d' p', fst (schedulerAddTask MAX f' c' d' p' st1) = k)
  /\ (forall ticks,
        task_at (schedulerUpdate MAX ticks st1) k = mk_sTask 0 c d p 0)
  /\ fst (schedulerDeleteTask MAX k st1) = (-1)%Z
  /\ errorCode (snd (schedulerDeleteTask MAX k st1)) = 2%Z
  /\ (forall p', schedulerModifyTaskPeriod MAX k p' st1 = ((-1)%Z, st1)).
Proof.
  intros Hok Hadd Hk.
  destruct (schedulerAddTask_success MAX st st1 0 c d p k Hok Hadd Hk)
    as (Hok1 & Hat1 & _).
  destruct (schedulerAddTask_cases MAX st 0 c d p)
    as [Hfull|(k' & Hk' & Hfree & Hlow & Hgap)].
  { rewrite Hfull in Hadd. injection Hadd as Hbad _. lia. }
  rewrite Hgap in Hadd. injection Hadd as -> <-.
  assert (Hnull : pTask (task_at (set_task st k (mk_sTask 0 c d p 0)) k) = 0%Z).
  { rewrite Hat1. reflexivity. }
  split; [exact Hat1|]. split.
  { unfold occupied_slots, set_task. simpl.
    pose proof (occupied_count_insert (schedulerTasks st) k
                  (mk_sTask 0 c d p 0) (task_at st k)
                  (lookup_task_at st k ltac:(unfold table_ok in Hok; lia)))
      as Hcount.
    rewrite (proj2 (occupied_false (task_at st k)) Hfree) in Hcount.
    simpl in Hcount. lia. }
  split.
  { intros f' c' d' p'.
    rewrite (schedulerAddTask_gap MAX _ f' c' d' p' k); [reflexivity|exact Hk| |].
    - exact Hnull.
    - intros j Hj. rewrite task_at_set_task_ne by lia. apply Hlow. exact Hj. }
  split.
  { intros ticks. rewrite schedulerUpdate_task_at by assumption.
    rewrite Hat1. reflexivity. }
  rewrite (schedulerDeleteTask_empty MAX _ k Hk Hnull).
  split; [reflexivity|]. split; [reflexivity|].
  intros p'. apply schedulerModifyTaskPeriod_fail. right. exact Hnull.
Qed.

Lemma add_null_callable_witness :
  let st1 := snd (schedulerAddTask 3 0 3 20 10 one_gap) in
  table_ok 3 one_gap
  /\ schedulerAddTask 3 0 3 20 10 one_gap = (1, st1)
  /\ occupied_slots st1 = occupied_slots one_gap
  /\ fst (schedulerAddTask 3 9 9 9 9 st1) = 1
  /\ fst (schedulerDeleteTask 3 1 st1) = (-1)%Z.
Proof.
  intros st1.
  destruct (add_null_callable 3 one_gap st1 3 20 10 1 eq_refl eq_refl
              ltac:(lia)) as (_ & Ho & Hnext & _ & Hdel & _).
  split; [reflexivity|]. split; [reflexivity|]. split; [exact Ho|].
  split; [exact (Hnext 9 9 9 9)%Z|exact Hdel].
Defined.

(** X4. Registering a task in a zeroed slot and deleting it again is a
    round trip: the delete succeeds and the table and [errorCode] are
    exactly what they were before the registration. *)
Theorem add_delete_round_trip (MAX : nat) (st st1 : scheduler)
    (f c d p : Z) (id : nat) :
  table_ok MAX st ->
  f <> 0%Z ->
  schedulerAddTask MAX f c d p st = (id, st1) ->
  id < MAX ->
  task_at st id = zero_task ->
  schedulerDeleteTask MAX id st1 = (0%Z, st).
Proof.
  intros Hok Hf Hadd Hid Hzero.
  destruct (schedulerAddTask_success MAX st st1 f c d p id Hok Hadd Hid)
    as (Hok1 & Hat1 & _).
  destruct (schedulerAddTask_cases MAX st f c d p)
    as [Hfull|(k' & Hk' & Hfree & Hlow & Hgap)].
  { rewrite Hfull in Hadd. injection Hadd as Hbad _. lia. }
  rewrite Hgap in Hadd. injection Hadd as -> <-.
  rewrite schedulerDeleteTask_occupied; [|exact Hid|rewrite Hat1; exact Hf].
  f_equal. destruct st as [l e]. unfold set_task. simpl. f_equal.
  rewrite list_insert_insert_eq. apply list_insert_id.
  unfold table_ok in Hok. simpl in Hok.
  rewrite <- Hzero. apply (lookup_task_at (mk_scheduler l e) id). simpl. lia.
Qed.

Lemma add_delete_round_trip_witness :
  let st1 := snd (schedulerAddTask 3 9 3 20 10 one_gap) in
  table_ok 3 one_gap
  /\ schedulerAddTask 3 9 3 20 10 one_gap = (1, st1)
  /\ task_at one_gap 1 = zero_task
  /\ schedulerDeleteTask 3 1 st1 = (0%Z, one_gap).
Proof.
  intros st1. split; [reflexivity|]. split; [reflexivity|].
  split; [reflexivity|].
  apply (add_delete_round_trip 3 one_gap st1 9 3 20 10 1);
    [reflexivity|discriminate|reflexivity|lia|reflexivity].
Defined.

(** X5. The number of occupied slots moves by exactly one on a
    successful registration of a non-null callable and on a successful
    delete, and is left as it is by a failing delete and by
    [schedulerModifyTaskPeriod]. *)
Theorem occupied_slots_registry (MAX : nat) (st : scheduler) :
  table_ok MAX st ->
  (forall f c d p,
      f <> 0%Z -> fst (schedulerAddTask MAX f c d p st) < MAX ->
      occupied_slots (snd (schedulerAddTask MAX f c d p st))
      = S (occupied_slots st))
  /\ (forall id,
        fst (schedulerDeleteTask MAX id st) = 0%Z ->
        S (occupied_slots (snd (schedulerDeleteTask MAX id st)))
        = occupied_slots st)
  /\ (forall id,
        fst (schedulerDeleteTask MAX id st) = (-1)%Z ->
        occupied_slots (snd (schedulerDeleteTask MAX id st))
        = occupied_slots st)
  /\ (forall id p,
        occupied_slots (snd (schedulerModifyTaskPeriod MAX id p st))
        = occupied_slots st).
Proof.
  intros Hok.
  assert (Hins : forall i t, i < MAX ->
            length (List.filter occupied (<[i := t]> (schedulerTasks st)))
            + Nat.b2n (occupied (task_at st i))
            = occupied_slots st + Nat.b2n (occupied t)).
  { intros i t Hi. apply occupied_count_insert. apply lookup_task_at.
    unfold table_ok in Hok. lia. }
  split.
  { intros f c d p Hf Hret.
    destruct (schedulerAddTask_cases MAX st f c d p)
      as [Hfull|(k & Hk & Hfree & _ & Hgap)].
    - rewrite Hfull in Hret. simpl in Hret. lia.
    - rewrite Hgap. unfold occupied_slots at 1, set_task. simpl.
      pose proof (Hins k (mk_sTask f c d p 0) Hk) as Hcount.
      rewrite (proj2 (occupied_false (task_at st k)) Hfree) in Hcount.
      rewrite (proj2 (occupied_true (mk_sTask f c d p 0)) Hf) in Hcount.
      simpl in Hcount. lia. }
  split.
  { intros id. unfold schedulerDeleteTask.
    destruct (Nat.leb_spec MAX id) as [Hge|Hlt]; [discriminate|].
    destruct (Z.eqb_spec (pTask (task_at st id)) 0) as [Hz|Hnz];
      [discriminate|].
    intros _. unfold occupied_slots at 1. simpl.
    pose proof (Hins id zero_task Hlt) as Hcount.
    rewrite (proj2 (occupied_true (task_at st id)) Hnz) in Hcount.
    simpl in Hcount. lia. }
  split.
  { intros id. unfold schedulerDeleteTask.
    destruct (Nat.leb_spec MAX id) as [Hge|Hlt]; [reflexivity|].
    destruct (Z.eqb_spec (pTask (task_at st id)) 0) as [Hz|Hnz];
      [|discriminate].
    intros _. unfold occupied_slots at 1. simpl.
    pose proof (Hins id zero_task Hlt) as Hcount.
    rewrite (proj2 (occupied_false (task_at st id)) Hz) in Hcount.
    simpl in Hcount. lia. }
  intros id p. unfold schedulerModifyTaskPeriod.
  destruct (Nat.leb_spec MAX id) as [Hge|Hlt]; [reflexivity|].
  destruct (pTask (task_at st id) =? 0)%Z; [reflexivity|].
  unfold occupied_slots at 1, set_task. simpl.
  pose proof (Hins id (set_period p (task_at st id)) Hlt) as Hcount.
  change (occupied (set_period p (task_at st id)))
    with (occupied (task_at st id)) in Hcount.
  lia.
Qed.

Lemma occupied_slots_registry_witness :
  table_ok 3 one_gap
  /\ occupied_slots one_gap = 2
  /\ occupied_slots (snd (schedulerAddTask 3 9 3 20 10 one_gap)) = 3
  /\ S (occupied_slots (snd (schedulerDeleteTask 3 2 one_gap))) = 2
  /\ occupied_slots (snd (schedulerDeleteTask 3 1 one_gap)) = 2.
Proof.
  destruct (occupied_slots_registry 3 one_gap eq_refl)
    as (Hadd & Hdel & Hfail & _).
  split; [reflexivity|]. split; [reflexivity|].
  split; [exact (Hadd 9 3 20 10 ltac:(discriminate) ltac:(simpl; lia))%Z|].
  split; [exact (Hdel 2 eq_refl)|exact (Hfail 1 eq_refl)].
Defined.

(** * Further properties of the tick update *)

Lemma update_task_frame (t : sTask_t) :
  pTask (update_task t) = pTask t
  /\ context (update_task t) = context t
  /\ period (update_task t) = period t.
Proof.
  unfold update_task.
  destruct (pTask t =? 0)%Z; [auto|].
  destruct (0 <? wrap32 (delay t - 1))%Z; [auto|].
  destruct (period t =? 0)%Z; auto.
Qed.

(** X6. [schedulerUpdate] only counts: it keeps the size of the table
    and [errorCode], it never changes the callable, the context or the
    period of a slot, it leaves a slot without a callable exactly as it
    is, and so it neither frees nor occupies a slot. *)
Theorem update_frame (MAX : nat) (ticks : Z) (st : scheduler) :
  table_ok MAX st ->
  let st' := schedulerUpdate MAX ticks st in
  table_ok MAX st'
  /\ errorCode st' = errorCode st
  /\ occupied_slots st' = occupied_slots st
  /\ (forall i,
        pTask (task_at st' i) = pTask (task_at st i)
        /\ context (task_at st' i) = context (task_at st i)
        /\ period (task_at st' i) = period (task_at st i)
        /\ (pTask (task_at st i) = 0%Z -> task_at st' i = task_at st i)).
Proof.
  intros Hok st'.
  assert (Hst' : st' = mk_scheduler (update_task <$> schedulerTasks st)
                                    (errorCode st)).
  { apply schedulerUpdate_fmap. exact Hok. }
  split; [apply schedulerUpdate_table_ok; exact Hok|].
  split; [rewrite Hst'; reflexivity|].
  split.
  { rewrite Hst'. unfold occupied_slots. simpl.
    apply occupied_count_fmap. intros t. unfold occupied.
    rewrite (proj1 (update_task_frame t)). reflexivity. }
  intros i.
  assert (Hat : task_at st' i = update_task (task_at st i)).
  { rewrite Hst'. unfold task_at. simpl. rewrite list_lookup_fmap.
    destruct (schedulerTasks st !! i); reflexivity. }
  rewrite Hat.
  destruct (update_task_frame (task_at st i)) as (Hf & Hc & Hp).
  split; [exact Hf|]. split; [exact Hc|]. split; [exact Hp|].
  apply update_task_free.
Qed.

Lemma update_frame_witness :
  table_ok 3 one_gap
  /\ errorCode (schedulerUpdate 3 1 one_gap) = errorCode one_gap
  /\ occupied_slots (schedulerUpdate 3 1 one_gap) = occupied_slots one_gap
  /\ task_at (schedulerUpdate 3 1 one_gap) 1 = task_at one_gap 1
  /\ period (task_at (schedulerUpdate 3 1 one_gap) 0) = 1000%Z.
Proof.
  destruct (update_frame 3 1 one_gap eq_refl) as (_ & He & Ho & Hslots).
  split; [reflexivity|]. split; [exact He|]. split; [exact Ho|].
  split.
  - exact (proj2 (proj2 (proj2 (Hslots 1))) eq_refl).
  - exact (proj1 (proj2 (proj2 (Hslots 0)))).
Defined.

(** X7. The first expiry of any occupied slot, whatever its period and
    whatever is already pending in [runMe]: with the delay standing at
    [d], the ticks before number [ticks_to_expiry d] only count the
    delay down, and tick number [ticks_to_expiry d] increments [runMe]
    and reloads the delay with the period, or leaves it at zero when the
    period is zero.  [ticks_to_expiry d] is [d] for [d >= 1] and [2^32]
    for [d = 0]. *)
Theorem first_expiry (MAX : nat) (st : scheduler) (id : nat) :
  table_ok MAX st ->
  id < MAX ->
  pTask (task_at st id) <> 0%Z ->
  uint32 (delay (task_at st id)) ->
  (forall n : nat,
      (Z.of_nat n < ticks_to_expiry (delay (task_at st id)))%Z ->
      task_at (run_ticks MAX n st) id
      = set_delay (wrap32 (delay (task_at st id) - Z.of_nat n)) (task_at st id))
  /\ (forall n : nat,
        Z.of_nat n = ticks_to_expiry (delay (task_at st id)) ->
        task_at (run_ticks MAX n st) id
        = mk_sTask (pTask (task_at st id)) (context (task_at st id))
                   (period (task_at st id)) (period (task_at st id))
                   (wrap32 (runMe (task_at st id) + 1))).
Proof.
  intros Hok Hid Hnz Hd. split; intros n Hn;
    rewrite run_ticks_task_at by assumption.
  - apply countdown_before_expiry; assumption.
  - rewrite (countdown_at_expiry (task_at st id) n Hnz Hd Hn).
    unfold expired.
    destruct (Z.eqb_spec (period (task_at st id)) 0) as [->|_]; reflexivity.
Qed.

Lemma first_expiry_witness :
  table_ok 2 two_tasks /\ 1 < 2 /\ pTask (task_at two_tasks 1) <> 0%Z
  /\ uint32 (delay (task_at two_tasks 1))
  /\ task_at (run_ticks 2 999 two_tasks) 1 = mk_sTask 8 2 1 0 0
  /\ task_at (run_ticks 2 1000 two_tasks) 1 = mk_sTask 8 2 0 0 1.
Proof.
  assert (Hnz : pTask (task_at two_tasks 1) <> 0%Z) by discriminate.
  assert (Hd : uint32 (delay (task_at two_tasks 1)))
    by (unfold uint32; simpl; lia).
  destruct (first_expiry 2 two_tasks 1 eq_refl ltac:(lia) Hnz Hd)
    as [Hbefore Hat].
  split; [reflexivity|]. split; [lia|]. split; [exact Hnz|].
  split; [exact Hd|]. split.
  - exact (Hbefore 999 eq_refl).
  - exact (Hat 1000 eq_refl).
Defined.

(** * Further properties of the dispatcher *)

Section DispatcherMore.

Variable MAX : nat.

Lemma due_calls_sorted (ticks : Z) (b : nat) (l : list sTask_t) :
  StronglySorted lt (call_slot <$> due_calls ticks b l)
  /\ Forall (fun j => b <= j) (call_slot <$> due_calls ticks b l).
Proof.
  revert b. induction l as [|t l IH]; intros b.
  - split; constructor.
  - destruct (IH (S b)) as [Hs Hb]. cbn [due_calls].
    assert (Hb' : Forall (fun j => b <= j)
                         (call_slot <$> due_calls ticks (S b) l)).
    { eapply Forall_impl; [exact Hb|]. intros j Hj. simpl in Hj. lia. }
    destruct (0 <? runMe t)%Z; simpl.
    + split.
      * constructor; [exact Hs|].
        eapply Forall_impl; [exact Hb|]. intros j Hj. simpl in Hj. lia.
      * constructor; [simpl; lia|exact Hb'].
    + split; [exact Hs|exact Hb'].
Qed.

Lemma due_calls_idle (ticks : Z) (b : nat) (l : list sTask_t) :
  Forall (fun t => (runMe t <= 0)%Z) l ->
  due_calls ticks b l = [] /\ dispatch_slot <$> l = l.
Proof.
  revert b. induction l as [|t l IH]; intros b Hl; [split; reflexivity|].
  apply Forall_cons in Hl. destruct Hl as [Ht Hl].
  destruct (IH (S b) Hl) as [Hc Hm].
  cbn [due_calls]. rewrite fmap_cons, Hc, Hm. unfold dispatch_slot.
  destruct (Z.ltb_spec 0 (runMe t)); [lia|]. split; reflexivity.
Qed.

(** The loop of the dispatcher over the first [n] slots, when the due
    slots among them have a callable. *)
Lemma fold_dispatch_prefix (ticks : Z) (n : nat) (l : list sTask_t) (e : Z)
    (tr : list call) :
  n <= length l -> n <= MAX ->
  (forall i t, i < n -> l !! i = Some t -> (0 < runMe t)%Z -> pTask t <> 0%Z) ->
  fold_left (fun acc i => dispatch_task MAX ticks i acc) (seq 0 n)
            (Some (mk_scheduler l e, tr))
  = Some (mk_scheduler ((dispatch_slot <$> take n l) ++ drop n l) e,
          tr ++ due_calls ticks 0 (take n l)).
Proof.
  intros Hn HMAX Hinv.
  induction n as [|n IH].
  - simpl. rewrite drop_0, app_nil_r. reflexivity.
  - rewrite seq_S, fold_left_app, IH; try lia.
    2:{ intros i t Hi. apply Hinv. lia. }
    simpl.
    destruct (lookup_lt_is_Some_2 l n ltac:(lia)) as [x Hx].
    assert (Hlen : length (dispatch_slot <$> take n l) = n).
    { rewrite length_fmap, length_take_le; lia. }
    assert (Hat : task_at (mk_scheduler ((dispatch_slot <$> take n l) ++ drop n l) e) n = x).
    { unfold task_at. simpl. rewrite lookup_app_r by lia.
      rewrite Hlen, Nat.sub_diag, (drop_S l x n Hx). reflexivity. }
    rewrite Hat.
    rewrite (take_S_r l n x Hx), fmap_app, due_calls_app. simpl.
    rewrite length_take_le by lia.
    rewrite (drop_S l x n Hx).
    destruct (Z.ltb_spec 0 (runMe x)) as [Hdue|Hnot].
    + destruct (Z.eqb_spec (pTask x) 0) as [Hz|Hnz].
      { exfalso. exact (Hinv n x ltac:(lia) Hx Hdue Hz). }
      f_equal. f_equal.
      * destruct (Z.eqb_spec (period x) 0) as [Hp|Hp].
        -- assert (Hds : dispatch_slot x = zero_task).
           { unfold dispatch_slot.
             rewrite (proj2 (Z.ltb_lt _ _) Hdue), Hp. reflexivity. }
           unfold schedulerDeleteTask.
           destruct (Nat.leb_spec MAX n) as [Hge|_]; [lia|].
           rewrite task_at_set_task_eq
             by (simpl; rewrite length_app, Hlen; simpl; lia).
           simpl. destruct (Z.eqb_spec (pTask x) 0) as [Hz|_]; [contradiction|].
           simpl. f_equal.
           rewrite list_insert_insert_eq.
           rewrite insert_app_r_alt by lia. rewrite Hlen, Nat.sub_diag. simpl.
           rewrite Hds, <- app_assoc. reflexivity.
        -- assert (Hds : dispatch_slot x = set_runMe (wrap32 (runMe x - 1)) x).
           { unfold dispatch_slot.
             rewrite (proj2 (Z.ltb_lt _ _) Hdue).
             destruct (Z.eqb_spec (period x) 0); [contradiction|reflexivity]. }
           unfold set_task. simpl. f_equal.
           rewrite insert_app_r_alt by lia. rewrite Hlen, Nat.sub_diag. simpl.
           rewrite Hds, <- app_assoc. reflexivity.
      * rewrite app_nil_r, <- app_assoc. reflexivity.
    + assert (Hds : dispatch_slot x = x).
      { unfold dispatch_slot.
        destruct (Z.ltb_spec 0 (runMe x)); [lia|reflexivity]. }
      rewrite !app_nil_r, Hds. f_equal. f_equal.
      rewrite <- app_assoc. reflexivity.
Qed.

End DispatcherMore.

Section DispatcherPasses.

Variable MAX : nat.

Lemma fold_dispatch_Some (ticks : Z) (n : nat) (l : list sTask_t) (e : Z)
    (tr : list call) (r : scheduler * list call) :
  n <= length l -> n <= MAX ->
  fold_left (fun acc i => dispatch_task MAX ticks i acc) (seq 0 n)
            (Some (mk_scheduler l e, tr)) = Some r ->
  forall i t, i < n -> l !! i = Some t -> (0 < runMe t)%Z -> pTask t <> 0%Z.
Proof.
  revert r. induction n as [|n IH]; intros r Hn HMAX Hfold i t Hi;
    [lia|].
  rewrite seq_S, fold_left_app in Hfold.
  destruct (fold_left _ (seq 0 n) _) as [r1|] eqn:Hprev;
    [|simpl in Hfold; discriminate].
  pose proof (IH r1 ltac:(lia) ltac:(lia) eq_refl) as Hgood.
  destruct (Nat.eq_dec i n) as [->|Hne]; [|apply Hgood; lia].
  intros Hx Hdue Hz.
  rewrite (fold_dispatch_prefix MAX ticks n l e tr ltac:(lia) ltac:(lia) Hgood)
    in Hprev.
  injection Hprev as <-.
  simpl in Hfold.
  assert (Hat : task_at (mk_scheduler
                  ((dispatch_slot <$> take n l) ++ drop n l) e) n = t).
  { unfold task_at. simpl.
    rewrite lookup_app_r by (rewrite length_fmap, length_take_le; lia).
    rewrite length_fmap, length_take_le, Nat.sub_diag by lia.
    rewrite (drop_S l t n Hx). reflexivity. }
  rewrite Hat in Hfold.
  rewrite (proj2 (Z.ltb_lt _ _) Hdue), Hz in Hfold. discriminate.
Qed.

(** [n] passes in a row, seen from one slot. *)
Lemma run_dispatch_slot (n : nat) (ticks : Z) (st : scheduler) (i : nat) :
  table_ok MAX st -> free_not_due st -> i < MAX ->
  exists st' tr,
    run_dispatch MAX n ticks st = Some (st', tr)
    /\ table_ok MAX st' /\ free_not_due st'
    /\ task_at st' i = Nat.iter n dispatch_slot (task_at st i)
    /\ calls_of i tr = pass_calls i ticks n (task_at st i).
Proof.
  intros Hok Hinv Hi. induction n as [|n IH].
  - exists st, []. simpl. repeat split; assumption.
  - destruct IH as (st1 & tr1 & Heq & Hok1 & Hinv1 & Hat1 & Hc1).
    cbn [run_dispatch]. rewrite Heq.
    rewrite schedulerDispatchTasks_fmap
      by (try apply free_not_due_due_has_callable; assumption).
    eexists _, _. split; [reflexivity|].
    assert (Hl : schedulerTasks st1 !! i = Some (task_at st1 i)).
    { apply lookup_task_at. unfold table_ok in Hok1. lia. }
    split; [|split; [|split]].
    + unfold table_ok in *. simpl. rewrite length_fmap. exact Hok1.
    + unfold free_not_due in *. simpl. apply Forall_fmap.
      eapply Forall_impl; [exact Hinv1|]. intros t. apply slot_ok_dispatch_slot.
    + rewrite Nat.iter_succ, <- Hat1.
      unfold task_at at 1. simpl. rewrite list_lookup_fmap, Hl. reflexivity.
    + cbn [pass_calls]. rewrite <- Hat1.
      rewrite calls_of_app, Hc1, calls_of_due_calls. simpl.
      rewrite Nat.sub_0_r, Hl. reflexivity.
Qed.

End DispatcherPasses.

(** A periodic slot with [r] invocations pending: each pass takes one. *)
Lemma backlog_slot (i : nat) (ticks : Z) (t : sTask_t) (n : nat) :
  period t <> 0%Z -> uint32 (runMe t) ->
  let m := Nat.min n (Z.to_nat (runMe t)) in
  Nat.iter n dispatch_slot t = set_runMe (runMe t - Z.of_nat m) t
  /\ pass_calls i ticks n t
     = replicate m (mk_call i (pTask t) (context t) ticks).
Proof.
  intros Hp Hr. unfold uint32 in Hr. induction n as [|n IH].
  - simpl. rewrite Z.sub_0_r. destruct t; split; reflexivity.
  - destruct IH as [Hslot Hcalls].
    cbn [pass_calls]. rewrite Nat.iter_succ, Hslot, Hcalls. cbv zeta.
    destruct (Nat.lt_ge_cases n (Z.to_nat (runMe t))) as [Hlt|Hge].
    + rewrite (Nat.min_l n) by lia. rewrite (Nat.min_l (S n)) by lia.
      assert (Hdue : (0 <? runMe t - Z.of_nat n)%Z = true)
        by (apply Z.ltb_lt; lia).
      split.
      * unfold dispatch_slot. cbn [runMe set_runMe period]. rewrite Hdue.
        destruct (Z.eqb_spec (period t) 0) as [Hz|_]; [contradiction|].
        unfold set_runMe. cbn [pTask context delay period runMe]. f_equal.
        rewrite wrap32_small by (unfold uint32; lia). lia.
      * cbn [runMe set_runMe pTask context]. rewrite Hdue.
        rewrite replicate_S_end. reflexivity.
    + rewrite (Nat.min_r n) by lia. rewrite (Nat.min_r (S n)) by lia.
      rewrite Z2Nat.id by lia. rewrite Z.sub_diag.
      split.
      * unfold dispatch_slot. cbn [runMe set_runMe period]. reflexivity.
      * cbn [runMe set_runMe]. cbn [Z.ltb Z.compare]. apply app_nil_r.
Qed.

(** X8. One pass of the dispatcher over a table whose due slots all
    have a callable: the pass returns; it invokes the callable of every
    due slot once, with the context of that slot and the tick count it
    was given, and nothing else; the invocations are made in ascending
    slot order; a due slot is then zeroed if its period is zero and has
    its [runMe] decremented otherwise, a slot that is not due is left as
    it is, and [errorCode] is not touched. *)
Theorem dispatch_pass (MAX : nat) (ticks : Z) (st : scheduler) :
  table_ok MAX st ->
  due_has_callable st ->
  exists st' tr,
    schedulerDispatchTasks MAX ticks st = Some (st', tr)
    /\ table_ok MAX st'
    /\ errorCode st' = errorCode st
    /\ StronglySorted lt (call_slot <$> tr)
    /\ (forall i, MAX <= i -> calls_of i tr = [])
    /\ (forall i, i < MAX ->
          calls_of i tr
          = (if (0 <? runMe (task_at st i))%Z
             then [mk_call i (pTask (task_at st i)) (context (task_at st i)) ticks]
             else [])
          /\ task_at st' i
             = (if (0 <? runMe (task_at st i))%Z
                then (if (period (task_at st i) =? 0)%Z then zero_task
                      else set_runMe (wrap32 (runMe (task_at st i) - 1))
                                     (task_at st i))
                else task_at st i)).
Proof.
  intros Hok Hinv.
  rewrite (schedulerDispatchTasks_fmap MAX ticks st Hok Hinv).
  eexists _, _. split; [reflexivity|]. unfold table_ok in *.
  split; [simpl; rewrite length_fmap; exact Hok|].
  split; [reflexivity|].
  split; [apply due_calls_sorted|].
  split.
  - intros i Hi. rewrite calls_of_due_calls. simpl.
    rewrite Nat.sub_0_r, (proj2 (lookup_ge_None _ _)) by lia. reflexivity.
  - intros i Hi.
    assert (Hl : schedulerTasks st !! i = Some (task_at st i))
      by (apply lookup_task_at; lia).
    split.
    + rewrite calls_of_due_calls. simpl. rewrite Nat.sub_0_r, Hl. reflexivity.
    + unfold task_at at 1. simpl. rewrite list_lookup_fmap, Hl. reflexivity.
Qed.

Lemma dispatch_pass_witness :
  let st := mk_scheduler [mk_sTask 7 1 300 1000 2; zero_task;
                          mk_sTask 8 2 0 0 1] 0 in
  table_ok 3 st /\ due_has_callable st
  /\ exists st' tr,
      schedulerDispatchTasks 3 5 st = Some (st', tr)
      /\ calls_of 0 tr = [mk_call 0 7 1 5]
      /\ calls_of 2 tr = [mk_call 2 8 2 5]
      /\ task_at st' 0 = mk_sTask 7 1 300 1000 1
      /\ task_at st' 2 = zero_task.
Proof.
  intros st.
  assert (Hinv : due_has_callable st).
  { intros i t Hl Hdue. destruct i as [|[|[|i]]]; simpl in Hl;
      try discriminate; injection Hl as <-; simpl in *;
      [discriminate|lia|discriminate]. }
  split; [reflexivity|]. split; [exact Hinv|].
  destruct (dispatch_pass 3 5 st eq_refl Hinv)
    as (st' & tr & Hrun & _ & _ & _ & _ & Hslots).
  exists st', tr. split; [exact Hrun|].
  destruct (Hslots 0 ltac:(lia)) as [Hc0 Ht0].
  destruct (Hslots 2 ltac:(lia)) as [Hc2 Ht2].
  split; [exact Hc0|]. split; [exact Hc2|]. split; [exact Ht0|exact Ht2].
Defined.

(** X9. The dispatcher checks [runMe] only, never the function pointer:
    a pass returns if and only if every due slot has a callable, and it
    ends in a call through a null pointer as soon as one slot is due
    without one. *)
Theorem dispatch_returns_iff (MAX : nat) (ticks : Z) (st : scheduler) :
  table_ok MAX st ->
  (schedulerDispatchTasks MAX ticks st <> None <-> due_has_callable st).
Proof.
  intros Hok. split.
  - intros Hret i t Hl Hdue.
    unfold schedulerDispatchTasks in Hret. destruct st as [l e].
    unfold table_ok in Hok. simpl in *.
    destruct (fold_left _ (seq 0 MAX) _) as [r|] eqn:Hfold;
      [|contradiction].
    apply (fold_dispatch_Some MAX ticks MAX l e [] r ltac:(lia) ltac:(lia)
             Hfold i t); [|exact Hl|exact Hdue].
    apply lookup_lt_Some in Hl. lia.
  - intros Hinv. rewrite (schedulerDispatchTasks_fmap MAX ticks st Hok Hinv).
    discriminate.
Qed.

Lemma dispatch_returns_iff_witness :
  let bad := mk_scheduler [mk_sTask 7 1 300 1000 0; mk_sTask 0 0 0 0 1] 0 in
  table_ok 2 bad /\ schedulerDispatchTasks 2 5 bad = None
  /\ ~ due_has_callable bad.
Proof.
  intros bad. split; [reflexivity|]. split; [reflexivity|].
  intros Hinv.
  apply (proj2 (dispatch_returns_iff 2 5 bad eq_refl) Hinv). reflexivity.
Defined.

(** X10. With no slot due, a pass of the dispatcher invokes nothing and
    leaves the table and [errorCode] exactly as they are. *)
Theorem dispatch_nothing_due (MAX : nat) (ticks : Z) (st : scheduler) :
  table_ok MAX st ->
  Forall (fun t => (runMe t <= 0)%Z) (schedulerTasks st) ->
  schedulerDispatchTasks MAX ticks st = Some (st, []).
Proof.
  intros Hok Hidle.
  assert (Hinv : due_has_callable st).
  { intros i t Hl Hdue.
    pose proof (proj1 (Forall_lookup _ _) Hidle i t Hl) as Hle.
    simpl in Hle. lia. }
  rewrite (schedulerDispatchTasks_fmap MAX ticks st Hok Hinv).
  destruct (due_calls_idle ticks 0 (schedulerTasks st) Hidle) as [-> ->].
  destruct st; reflexivity.
Qed.

Lemma dispatch_nothing_due_witness :
  table_ok 3 one_gap
  /\ Forall (fun t => (runMe t <= 0)%Z) (schedulerTasks one_gap)
  /\ schedulerDispatchTasks 3 5 one_gap = Some (one_gap, []).
Proof.
  assert (Hidle : Forall (fun t => (runMe t <= 0)%Z) (schedulerTasks one_gap)).
  { repeat constructor; simpl; lia. }
  split; [reflexivity|]. split; [exact Hidle|].
  apply (dispatch_nothing_due 3 5 one_gap eq_refl Hidle).
Defined.

(** X11. Expiries of a periodic task that were not dispatched in time
    are caught up one per pass: with [runMe = r] pending, [n] passes of
    the dispatcher with no tick in between invoke its callable
    [min n r] times, lower [runMe] by as much, and leave the rest of the
    slot alone; once [runMe] is zero further passes invoke nothing. *)
Theorem backlog_drained (MAX : nat) (st : scheduler) (id : nat)
    (ticks : Z) (n : nat) :
  table_ok MAX st ->
  free_not_due st ->
  id < MAX ->
  pTask (task_at st id) <> 0%Z ->
  period (task_at st id) <> 0%Z ->
  uint32 (runMe (task_at st id)) ->
  let t := task_at st id in
  let m := Nat.min n (Z.to_nat (runMe t)) in
  exists st' tr,
    run_dispatch MAX n ticks st = Some (st', tr)
    /\ calls_of id tr = replicate m (mk_call id (pTask t) (context t) ticks)
    /\ task_at st' id = set_runMe (runMe t - Z.of_nat m) t.
Proof.
  intros Hok Hinv Hid Hf Hp Hr t m.
  destruct (run_dispatch_slot MAX n ticks st id Hok Hinv Hid)
    as (st' & tr & Hrun & _ & _ & Hslot & Hcalls).
  exists st', tr. split; [exact Hrun|].
  destruct (backlog_slot id ticks t n Hp Hr) as [Hs Hc].
  split; [rewrite Hcalls; exact Hc|rewrite Hslot; exact Hs].
Qed.

Lemma backlog_drained_witness :
  let st := mk_scheduler [mk_sTask 7 1 300 1000 3; zero_task] 0 in
  table_ok 2 st /\ free_not_due st
  /\ exists st' tr,
      run_dispatch 2 5 9 st = Some (st', tr)
      /\ calls_of 0 tr = [mk_call 0 7 1 9; mk_call 0 7 1 9; mk_call 0 7 1 9]
      /\ task_at st' 0 = mk_sTask 7 1 300 1000 0.
Proof.
  intros st.
  assert (Hinv : free_not_due st).
  { repeat constructor. intros Hz. discriminate. }
  split; [reflexivity|]. split; [exact Hinv|].
  apply (backlog_drained 2 st 0 9 5 eq_refl Hinv);
    [lia|discriminate|discriminate|unfold uint32; simpl; lia].
Defined.

(** * Further properties of the main loop *)

Section RoundsMore.

Local Open Scope Z_scope.

(** What is pending in [runMe] has no say in the countdown. *)
Lemma update_task_set_runMe (r : Z) (t : sTask_t) :
  update_task (set_runMe r t)
  = set_runMe (if (pTask t =? 0) || (0 <? wrap32 (delay t - 1))
               then r else wrap32 (r + 1))
              (update_task t).
Proof.
  unfold update_task. cbn [pTask delay period runMe set_runMe].
  destruct (pTask t =? 0); [reflexivity|].
  destruct (0 <? wrap32 (delay t - 1)); [reflexivity|].
  destruct (period t =? 0); reflexivity.
Qed.

Lemma periodic_round (i k : nat) (f c D P n : Z) :
  f <> 0 -> 1 <= D < 2 ^ 32 -> 1 <= P < 2 ^ 32 -> 0 <= n ->
  round_slot (set_runMe 0 (periodic_slot f c D P n))
  = set_runMe 0 (periodic_slot f c D P (n + 1))
  /\ round_calls i k (set_runMe 0 (periodic_slot f c D P n))
     = if expiry_tick D P (n + 1) then [mk_call i f c (Z.of_nat k)] else [].
Proof.
  intros Hf HD HP Hn.
  pose proof (periodic_slot_delay f c D P n HD HP Hn) as Hdelay.
  pose proof (expiry_tick_delay f c D P n HD HP Hn) as Hexp.
  assert (Hup : update_task (set_runMe 0 (periodic_slot f c D P n))
                = set_runMe (if expiry_tick D P (n + 1) then 1 else 0)
                            (periodic_slot f c D P (n + 1))).
  { rewrite update_task_set_runMe, periodic_slot_step by assumption.
    f_equal. rewrite Hexp.
    assert (Hp : pTask (periodic_slot f c D P n) = f) by reflexivity.
    rewrite Hp. clear Hp Hexp.
    remember (delay (periodic_slot f c D P n)) as dl eqn:Hdl. clear Hdl.
    destruct (Z.eqb_spec f 0) as [Hz|_]; [contradiction|]. cbn [orb].
    rewrite wrap32_small by (unfold uint32; lia).
    destruct (Z.eqb_spec dl 1) as [H1|Hn1].
    - rewrite H1. reflexivity.
    - destruct (Z.ltb_spec 0 (dl - 1)); [reflexivity|lia]. }
  unfold round_slot, round_calls. rewrite Hup.
  destruct (expiry_tick D P (n + 1)).
  - split; [|reflexivity].
    unfold dispatch_slot. cbn [runMe set_runMe period periodic_slot].
    destruct (Z.eqb_spec P 0) as [HP0|_]; [lia|]. reflexivity.
  - split; reflexivity.
Qed.

Lemma periodic_rounds (i : nat) (f c D P : Z) (n : nat) :
  f <> 0 -> 1 <= D < 2 ^ 32 -> 1 <= P < 2 ^ 32 ->
  Nat.iter n round_slot (mk_sTask f c D P 0)
  = set_runMe 0 (periodic_slot f c D P (Z.of_nat n))
  /\ slot_calls i n (mk_sTask f c D P 0) = expiry_calls i f c D P n.
Proof.
  intros Hf HD HP. induction n as [|n IH].
  - simpl. rewrite periodic_slot_0 by lia. split; reflexivity.
  - destruct IH as [Hslot Hcalls].
    destruct (periodic_round i (S n) f c D P (Z.of_nat n) Hf HD HP ltac:(lia))
      as [Hr Hc].
    replace (Z.of_nat n + 1) with (Z.of_nat (S n)) in Hr, Hc by lia.
    split.
    + rewrite Nat.iter_succ, Hslot. exact Hr.
    + cbn [slot_calls expiry_calls]. rewrite Hcalls, Hslot, Hc. reflexivity.
Qed.

Lemma expiries_nonneg (D P n : Z) : 1 <= P -> 0 <= expiries D P n.
Proof.
  intros HP. unfold expiries. destruct (Z.ltb_spec n D); [lia|].
  pose proof (Z.div_pos (n - D) P ltac:(lia) ltac:(lia)). lia.
Qed.

Lemma expiry_calls_length (i : nat) (f c D P : Z) (n : nat) :
  1 <= D -> 1 <= P ->
  Z.of_nat (length (expiry_calls i f c D P n)) = expiries D P (Z.of_nat n).
Proof.
  intros HD HP. induction n as [|n IH].
  - cbn [expiry_calls length]. unfold expiries. change (Z.of_nat 0) with 0.
    destruct (Z.ltb_spec 0 D); [reflexivity|lia].
  - cbn [expiry_calls]. rewrite length_app, Nat2Z.inj_add, IH.
    pose proof (expiries_succ D P (Z.of_nat n) HD HP ltac:(lia)) as Hs.
    replace (Z.of_nat n + 1) with (Z.of_nat (S n)) in Hs by lia.
    rewrite Hs. destruct (expiry_tick D P (Z.of_nat (S n))); simpl; lia.
Qed.

Lemma free_slot_rounds (i : nat) (n : nat) :
  Nat.iter n round_slot zero_task = zero_task
  /\ slot_calls i n zero_task = [].
Proof.
  induction n as [|n [Hslot Hcalls]]; [split; reflexivity|].
  split.
  - rewrite Nat.iter_succ, Hslot. reflexivity.
  - cbn [slot_calls]. rewrite Hcalls, Hslot. reflexivity.
Qed.

End RoundsMore.

(** X12. A periodic task in the main loop.  Registered with delay
    [D >= 1] and period [P >= 1] and dispatched after every tick, the
    task is invoked in the rounds [D], [D + P], [D + 2 P], ... and in no
    other, each time with the callable and context it was registered
    with and the number of the round; after [n] rounds it has been
    invoked as many times as there are such rounds up to [n], nothing is
    pending in [runMe], and its delay counts down to the next of
    them. *)
Theorem periodic_task_rounds (MAX : nat) (st st1 : scheduler)
    (f c D P : Z) (id : nat) (n : nat) :
  table_ok MAX st ->
  free_not_due st ->
  f <> 0%Z ->
  (1 <= D < 2 ^ 32)%Z ->
  (1 <= P < 2 ^ 32)%Z ->
  schedulerAddTask MAX f c D P st = (id, st1) ->
  id < MAX ->
  exists st' tr,
    main_loop MAX n st1 = Some (st', tr)
    /\ calls_of id tr = expiry_calls id f c D P n
    /\ Z.of_nat (length (calls_of id tr)) = expiries D P (Z.of_nat n)
    /\ task_at st' id
       = mk_sTask f c
           (if (Z.of_nat n <? D)%Z then (D - Z.of_nat n)%Z
            else (P - (Z.of_nat n - D) mod P)%Z)
           P 0.
Proof.
  intros Hok Hinv Hf HD HP Hadd Hid.
  destruct (schedulerAddTask_success MAX st st1 f c D P id Hok Hadd Hid)
    as (Hok1 & Hat1 & Hinv1).
  destruct (main_loop_slot MAX n st1 id Hok1 (Hinv1 Hinv) Hid)
    as (st' & tr & Hrun & _ & _ & _ & Hslot & Hcalls).
  exists st', tr. split; [exact Hrun|].
  rewrite Hat1 in Hslot, Hcalls.
  destruct (periodic_rounds id f c D P n Hf HD HP) as [Hs Hc].
  rewrite Hcalls, Hc, Hslot, Hs.
  split; [reflexivity|].
  split; [apply expiry_calls_length; lia|reflexivity].
Qed.

Lemma periodic_task_rounds_witness :
  let st1 := snd (schedulerAddTask 3 9 3 2 3 one_gap) in
  table_ok 3 one_gap /\ free_not_due one_gap
  /\ schedulerAddTask 3 9 3 2 3 one_gap = (1, st1)
  /\ exists st' tr,
      main_loop 3 9 st1 = Some (st', tr)
      /\ calls_of 1 tr = [mk_call 1 9 3 2; mk_call 1 9 3 5; mk_call 1 9 3 8]
      /\ task_at st' 1 = mk_sTask 9 3 2 3 0.
Proof.
  intros st1.
  assert (Hinv : free_not_due one_gap).
  { repeat constructor. }
  split; [reflexivity|]. split; [exact Hinv|]. split; [reflexivity|].
  destruct (periodic_task_rounds 3 one_gap st1 9 3 2 3 1 9 eq_refl Hinv
              ltac:(discriminate) ltac:(lia) ltac:(lia) eq_refl ltac:(lia))
    as (st' & tr & Hrun & Hcalls & _ & Hslot).
  exists st', tr. split; [exact Hrun|]. split; [exact Hcalls|exact Hslot].
Defined.

(** On the table with a gap, a task registered with delay [2] and
    period [0] is invoked once, in round [2], and has left the table by
    round [5]. *)
Lemma one_shot_fires_once_witness :
  let st1 := snd (schedulerAddTask 3 9 3 2 0 one_gap) in
  table_ok 3 one_gap /\ free_not_due one_gap
  /\ schedulerAddTask 3 9 3 2 0 one_gap = (1, st1)
  /\ exists st' tr,
      main_loop 3 5 st1 = Some (st', tr)
      /\ calls_of 1 tr = [mk_call 1 9 3 2]
      /\ task_at st' 1 = zero_task.
Proof.
  intros st1.
  assert (Hinv : free_not_due one_gap).
  { repeat constructor. }
  split; [reflexivity|]. split; [exact Hinv|]. split; [reflexivity|].
  destruct (one_shot_fires_once 3 one_gap st1 9 3 2 1 5 eq_refl Hinv
              ltac:(discriminate) ltac:(lia) eq_refl ltac:(lia))
    as (st' & tr & Hrun & _ & Hspent).
  exists st', tr. split; [exact Hrun|].
  exact (Hspent ltac:(lia)).
Defined.

(** X14. [schedulerDeleteTask] cancels whatever is pending: after it,
    however many rounds the main loop makes, nothing is invoked from the
    slot and the slot stays zeroed, even if the task was due when it was
    deleted. *)
Theorem deleted_task_never_invoked (MAX : nat) (st : scheduler) (id : nat)
    (n : nat) :
  table_ok MAX st ->
  free_not_due st ->
  id < MAX ->
  exists st' tr,
    main_loop MAX n (snd (schedulerDeleteTask MAX id st)) = Some (st', tr)
    /\ calls_of id tr = []
    /\ task_at st' id = zero_task.
Proof.
  intros Hok Hinv Hid.
  pose proof (schedulerDeleteTask_table_ok MAX st id Hok) as Hok1.
  pose proof (schedulerDeleteTask_free_not_due MAX st id Hinv) as Hinv1.
  destruct (main_loop_slot MAX n _ id Hok1 Hinv1 Hid)
    as (st' & tr & Hrun & _ & _ & _ & Hslot & Hcalls).
  exists st', tr. split; [exact Hrun|].
  assert (Hz : task_at (snd (schedulerDeleteTask MAX id st)) id = zero_task).
  { unfold task_at. rewrite schedulerDeleteTask_tasks by exact Hid.
    rewrite list_lookup_insert_eq by (unfold table_ok in Hok; lia).
    reflexivity. }
  rewrite Hz in Hslot, Hcalls.
  destruct (free_slot_rounds id n) as [Hs Hc].
  split; [rewrite Hcalls; exact Hc|rewrite Hslot; exact Hs].
Qed.

Lemma deleted_task_never_invoked_witness :
  let st := mk_scheduler [mk_sTask 7 1 300 1000 2; zero_task] 0 in
  table_ok 2 st /\ free_not_due st
  /\ exists st' tr,
      main_loop 2 4 (snd (schedulerDeleteTask 2 0 st)) = Some (st', tr)
      /\ calls_of 0 tr = []
      /\ task_at st' 0 = zero_task.
Proof.
  intros st.
  assert (Hinv : free_not_due st).
  { repeat constructor. intros Hz. discriminate. }
  split; [reflexivity|]. split; [exact Hinv|].
  apply (deleted_task_never_invoked 2 st 0 4 eq_refl Hinv). lia.
Defined.

(** X15. Setting the period of a waiting task to zero turns it into a
    one-shot task: the countdown under way runs to its end, the callable
    is invoked once more, in the round in which it expires, and the
    dispatcher then removes the task from the table. *)
Theorem period_zero_makes_one_shot (MAX : nat) (st : scheduler) (id : nat)
    (n : nat) :
  table_ok MAX st ->
  free_not_due st ->
  id < MAX ->
  pTask (task_at st id) <> 0%Z ->
  runMe (task_at st id) = 0%Z ->
  (1 <= delay (task_at st id) < 2 ^ 32)%Z ->
  let t := task_at st id in
  exists st' tr,
    main_loop MAX n (snd (schedulerModifyTaskPeriod MAX id 0 st))
    = Some (st', tr)
    /\ ((Z.of_nat n < delay t)%Z ->
        calls_of id tr = []
        /\ task_at st' id
           = mk_sTask (pTask t) (context t) (delay t - Z.of_nat n) 0 0)
    /\ ((delay t <= Z.of_nat n)%Z ->
        calls_of id tr = [mk_call id (pTask t) (context t) (delay t)]
        /\ task_at st' id = zero_task).
Proof.
  intros Hok Hinv Hid Hf Hr HD t. subst t.
  set (t := task_at st id) in *.
  pose proof (schedulerModifyTaskPeriod_table_ok MAX st id 0 Hok) as Hok1.
  pose proof (schedulerModifyTaskPeriod_free_not_due MAX st id 0 Hinv) as Hinv1.
  destruct (main_loop_slot MAX n _ id Hok1 Hinv1 Hid)
    as (st' & tr & Hrun & _ & _ & _ & Hslot & Hcalls).
  exists st', tr. split; [exact Hrun|].
  assert (Hat : task_at (snd (schedulerModifyTaskPeriod MAX id 0 st)) id
                = mk_sTask (pTask t) (context t) (delay t) 0 0).
  { rewrite schedulerModifyTaskPeriod_occupied by assumption. simpl.
    rewrite task_at_set_task_eq by (unfold table_ok in Hok; lia).
    fold t. unfold set_period. rewrite Hr. reflexivity. }
  rewrite Hat in Hslot, Hcalls. rewrite Hslot, Hcalls.
  assert (HDu : uint32 (delay t)) by (unfold uint32; lia).
  assert (HT : ticks_to_expiry (delay t) = delay t).
  { unfold ticks_to_expiry. destruct (Z.eqb_spec (delay t) 0); [lia|reflexivity]. }
  split.
  - intros Hn.
    destruct (one_shot_waiting id (pTask t) (context t) (delay t) Hf HDu n
                ltac:(lia)) as [-> ->].
    split; [reflexivity|].
    rewrite wrap32_small by (unfold uint32; lia). reflexivity.
  - intros Hn.
    destruct (one_shot_spent id (pTask t) (context t) (delay t) Hf HDu n
                ltac:(lia)) as [-> ->].
    rewrite HT. split; reflexivity.
Qed.

Lemma period_zero_makes_one_shot_witness :
  let st := mk_scheduler [mk_sTask 7 1 3 1000 0; zero_task] 0 in
  table_ok 2 st /\ free_not_due st
  /\ exists st' tr,
      main_loop 2 5 (snd (schedulerModifyTaskPeriod 2 0 0 st)) = Some (st', tr)
      /\ calls_of 0 tr = [mk_call 0 7 1 3]
      /\ task_at st' 0 = zero_task.
Proof.
  intros st.
  assert (Hinv : free_not_due st).
  { repeat constructor. }
  split; [reflexivity|]. split; [exact Hinv|].
  destruct (period_zero_makes_one_shot 2 st 0 5 eq_refl Hinv ltac:(lia)
              ltac:(discriminate) eq_refl ltac:(simpl; lia))
    as (st' & tr & Hrun & _ & Hspent).
  exists st', tr. split; [exact Hrun|].
  exact (Hspent ltac:(simpl; lia)).
Defined.

(** * The status report, when it is compiled in *)

Section Report.

Local Open Scope Z_scope.

Lemma report_new_code (e last cnt port : Z) :
  e <> last ->
  schedulerReportStatus_reporting (mk_report e last cnt port)
  = mk_report e e (if e =? 0 then 0 else 60000) (255 - e).
Proof.
  intros Hne. unfold schedulerReportStatus_reporting. simpl.
  destruct (Z.eqb_spec e last) as [Heq|_]; [contradiction|]. simpl.
  destruct (e =? 0); reflexivity.
Qed.

Lemma report_counting (e cnt port : Z) :
  2 <= cnt ->
  schedulerReportStatus_reporting (mk_report e e cnt port)
  = mk_report e e (cnt - 1) port.
Proof.
  intros Hc. unfold schedulerReportStatus_reporting. simpl.
  rewrite Z.eqb_refl. simpl.
  destruct (Z.eqb_spec cnt 0) as [H0|_]; [lia|]. simpl.
  destruct (Z.eqb_spec (cnt - 1) 0) as [H1|_]; [lia|]. reflexivity.
Qed.

Lemma report_countdown (e port : Z) (k : nat) :
  Z.of_nat k < 60000 ->
  Nat.iter k schedulerReportStatus_reporting (mk_report e e 60000 port)
  = mk_report e e (60000 - Z.of_nat k) port.
Proof.
  induction k as [|k IH]; intros Hk; [reflexivity|].
  rewrite Nat.iter_succ, IH by lia.
  rewrite report_counting by lia. f_equal. lia.
Qed.

Lemma report_idle (k : nat) :
  Nat.iter k schedulerReportStatus_reporting (mk_report 0 0 0 255)
  = mk_report 0 0 0 255.
Proof.
  induction k as [|k IH]; [reflexivity|].
  rewrite Nat.iter_succ, IH. reflexivity.
Qed.

End Report.

(** X16. The status report, in a build that defines
    [SCH_REPORT_ERRORS].  When [errorCode] holds a new non-zero code,
    the first call writes [255 - errorCode] to the port and arms a count
    of 60000; each of the following calls only counts down, the code and
    the port staying as they are; the 60000th of them resets [errorCode]
    to zero; the call after that writes [255] to the port; and from then
    on the report does nothing. *)
Theorem report_timeout (e last cnt port : Z) :
  e <> 0%Z ->
  e <> last ->
  let s1 := schedulerReportStatus_reporting (mk_report e last cnt port) in
  s1 = mk_report e e 60000 (255 - e)
  /\ (forall k : nat,
        (Z.of_nat k < 60000)%Z ->
        Nat.iter k schedulerReportStatus_reporting s1
        = mk_report e e (60000 - Z.of_nat k) (255 - e))
  /\ (forall k : nat,
        Z.of_nat k = 60000%Z ->
        Nat.iter k schedulerReportStatus_reporting s1
        = mk_report 0 e 0 (255 - e))
  /\ (forall k : nat,
        (60000 < Z.of_nat k)%Z ->
        Nat.iter k schedulerReportStatus_reporting s1
        = mk_report 0 0 0 255).
Proof.
  intros He Hne s1.
  assert (Hs1 : s1 = mk_report e e 60000 (255 - e)).
  { subst s1. rewrite report_new_code by exact Hne.
    destruct (Z.eqb_spec e 0) as [H0|_]; [contradiction|reflexivity]. }
  assert (Hreset : forall k : nat, Z.of_nat k = 60000%Z ->
            Nat.iter k schedulerReportStatus_reporting s1
            = mk_report 0 e 0 (255 - e)).
  { intros k Hk. destruct k as [|k]; [simpl in Hk; lia|].
    rewrite Nat.iter_succ, Hs1, report_countdown by lia.
    replace (60000 - Z.of_nat k)%Z with 1%Z by lia.
    unfold schedulerReportStatus_reporting. simpl.
    rewrite Z.eqb_refl. reflexivity. }
  split; [exact Hs1|]. split.
  { intros k Hk. rewrite Hs1. apply report_countdown. exact Hk. }
  split; [exact Hreset|].
  intros k Hk.
  remember (Z.to_nat 60000) as m eqn:Hm.
  assert (HmZ : Z.of_nat m = 60000%Z) by (subst m; apply Z2Nat.id; lia).
  replace k with ((k - S m) + S m)%nat by lia.
  rewrite Nat.iter_add, Nat.iter_succ, (Hreset m HmZ).
  rewrite report_new_code by (intros H0; apply He; symmetry; exact H0).
  apply report_idle.
Qed.

Lemma report_timeout_witness :
  let s1 := schedulerReportStatus_reporting (mk_report 2 0 0 255) in
  s1 = mk_report 2 2 60000 253
  /\ Nat.iter 10 schedulerReportStatus_reporting s1 = mk_report 2 2 59990 253.
Proof.
  intros s1.
  destruct (report_timeout 2 0 0 255 ltac:(discriminate) ltac:(discriminate))
    as (Hs1 & Hcount & _).
  split; [exact Hs1|].
  exact (Hcount 10%nat eq_refl).
Defined.
